(** * dusudoku: a recursive backtracking sudoku solver

    A shallow embedding of [dusudoku.cpp] and the verification of its
    input validator ([readInput]) and of its search ([solve]).

    Conventions of the embedding.
    - [int] values are [Z]: the program computes nothing below -176 or
      above 127, so no wrap-around can occur; positions and indices, which
      stay in 0..81, are [nat].
    - the input is a C string: a [string] read up to its first NUL.
    - [bitset<9>] is a [Z] whose bits are read with [Z.testbit], set with
      [Z.setbit] and cleared with [Z.clearbit].
    - the four arrays of [struct sudoku] are lists; an array read is a list
      lookup, and a read outside of the array (undefined behaviour in C++)
      makes the embedded function return [None].
    - [solve] is recursive on the call depth that is left: [solve_fuel n]
      may nest at most [n] calls and returns [None] when it would need more. *)

From Stdlib Require Import ZArith String Ascii DecimalString Lia.
From stdpp Require Import base option list numbers strings.

Local Open Scope Z_scope.

(** ** The data of the program *)

Definition DASH : Z := 45.
Definition NUMERAL_ZERO : Z := 48.
Definition NUMERAL_NINE : Z := 57.

Record sudoku : Type := Sudoku {
  grid : list Z;
  columns : list Z;
  rows : list Z;
  subgrid : list Z
}.

Definition ninths : list nat := [
  0; 0; 0; 1; 1; 1; 2; 2; 2;
  0; 0; 0; 1; 1; 1; 2; 2; 2;
  0; 0; 0; 1; 1; 1; 2; 2; 2;
  3; 3; 3; 4; 4; 4; 5; 5; 5;
  3; 3; 3; 4; 4; 4; 5; 5; 5;
  3; 3; 3; 4; 4; 4; 5; 5; 5;
  6; 6; 6; 7; 7; 7; 8; 8; 8;
  6; 6; 6; 7; 7; 7; 8; 8; 8;
  6; 6; 6; 7; 7; 7; 8; 8; 8 ]%nat.

(** The arrays of a [struct sudoku] have 81, 9, 9 and 9 elements. *)
Definition wf_sudoku (s : sudoku) : Prop :=
  length (grid s) = 81%nat ∧ length (columns s) = 9%nat ∧
  length (rows s) = 9%nat ∧ length (subgrid s) = 9%nat.

(** [sets[k][i]]: bit [i] of the [k]-th bitset of a family. *)
Definition bit (sets : list Z) (k : nat) (i : Z) : option bool :=
  b ← sets !! k; Some (Z.testbit b i).

(** [a || b] of C++, the right operand being read only when the left one
    is false. *)
Definition or_else (a b : option bool) : option bool :=
  x ← a; if x : bool then Some true else b.

(** [s->grid[p] = v]. *)
Definition set_grid (p : nat) (v : Z) (s : sudoku) : sudoku :=
  {| grid := <[p := v]> (grid s); columns := columns s;
     rows := rows s; subgrid := subgrid s |}.

(** [s->columns[c_i].set(i); s->rows[r_i].set(i); s->subgrid[s_i].set(i);] *)
Definition set_bits (c_i r_i s_i : nat) (i : Z) (s : sudoku) : sudoku :=
  {| grid := grid s;
     columns := alter (λ b, Z.setbit b i) c_i (columns s);
     rows := alter (λ b, Z.setbit b i) r_i (rows s);
     subgrid := alter (λ b, Z.setbit b i) s_i (subgrid s) |}.

(** [s->columns[c_i].reset(i); s->rows[r_i].reset(i);
    s->subgrid[s_i].reset(i);] *)
Definition reset_bits (c_i r_i s_i : nat) (i : Z) (s : sudoku) : sudoku :=
  {| grid := grid s;
     columns := alter (λ b, Z.clearbit b i) c_i (columns s);
     rows := alter (λ b, Z.clearbit b i) r_i (rows s);
     subgrid := alter (λ b, Z.clearbit b i) s_i (subgrid s) |}.

(** ** readInput *)

(** [std::to_string] on an [int]. *)
Definition to_string (n : Z) : string := NilZero.string_of_int (Z.to_int n).

(** [strlen]: the characters before the first NUL. *)
Fixpoint strlen (input : string) : nat :=
  match input with
  | EmptyString => 0%nat
  | String c rest => if Ascii.eqb c zero then 0%nat else S (strlen rest)
  end.

(** [input[i]]; at the end of the string the terminating NUL is read. *)
Definition char_at (input : string) (i : nat) : ascii :=
  default zero (String.get i input).

(** A [char] as the [int] it is promoted to, [char] being signed. *)
Definition char_int (c : ascii) : Z :=
  let n := Z.of_N (N_of_ascii c) in
  if n <? 128 then n else n - 256.

(** [(input[i] < NUMERAL_ZERO || input[i] > NUMERAL_NINE) && input[i] != DASH] *)
Definition invalid_char (ch : ascii) : bool :=
  ((char_int ch <? NUMERAL_ZERO) || (NUMERAL_NINE <? char_int ch))
  && negb (char_int ch =? DASH).

(** [int num = 0; if (input[i] != DASH) num = input[i]-NUMERAL_ZERO;] *)
Definition num_of (ch : ascii) : Z :=
  if negb (char_int ch =? DASH) then char_int ch - NUMERAL_ZERO else 0.

(** The four messages of the loop, as the source builds them. *)
Definition character_error (ch : ascii) : string :=
  "Invalid input character (" +:+ String ch "" +:+ ")".

Definition column_error (num : Z) (c_i : nat) : string :=
  "The number " +:+ to_string num +:+ " appears more than once in column "
  +:+ to_string (Z.of_nat c_i + 1).

Definition row_error (num : Z) (r_i : nat) : string :=
  "The number " +:+ to_string num +:+ " appears more than once on row "
  +:+ to_string (Z.of_nat r_i + 1).

Definition subgrid_error (num : Z) (c_i : nat) : string :=
  "The number " +:+ to_string num +:+ " appears more than once in subgrid "
  +:+ to_string (Z.of_nat c_i + 1).

(** What one turn of the loop of [readInput] does: it goes on to the next
    turn, or it leaves the function with [false]. *)
Inductive outcome : Type :=
  | Continue (s : sudoku)
  | ReturnFalse (s : sudoku) (err : string).

Definition readInput_body (input : string) (i : nat) (s : sudoku)
    : option outcome :=
  let ch := char_at input i in
  if invalid_char ch then Some (ReturnFalse s (character_error ch))
  else
    let num := num_of ch in
    let s := set_grid i num s in
    if 0 <? num then
      let c_i := (i mod 9)%nat in
      let r_i := (i / 9)%nat in
      s_i ← ninths !! i;
      in_column ← bit (columns s) c_i (num - 1);
      if in_column : bool then Some (ReturnFalse s (column_error num c_i))
      else
        in_row ← bit (rows s) r_i (num - 1);
        if in_row : bool then Some (ReturnFalse s (row_error num r_i))
        else
          in_subgrid ← bit (subgrid s) s_i (num - 1);
          if in_subgrid : bool
          then Some (ReturnFalse s (subgrid_error num c_i))
          else Some (Continue (set_bits c_i r_i s_i (num - 1) s))
    else Some (Continue s).

(** [n] turns of the loop, from index [i] on. *)
Fixpoint readInput_loop (n : nat) (input : string) (i : nat) (s : sudoku)
    (err : string) : option (bool * sudoku * string) :=
  match n with
  | O => Some (true, s, err)
  | S n' =>
      o ← readInput_body input i s;
      match o with
      | ReturnFalse s' err' => Some (false, s', err')
      | Continue s' => readInput_loop n' input (S i) s' err
      end
  end.

Definition readInput (input : string) (s : sudoku) (err : string)
    : option (bool * sudoku * string) :=
  if negb (strlen input =? 81)%nat
  then Some (false, s, "The expected input length is 81 characters"%string)
  else readInput_loop 81 input 0 s err.

(** ** solve *)

(** [s->columns[c_i][i] || s->rows[r_i][i] || s->subgrid[s_i][i]] *)
Definition blocked (c_i r_i s_i : nat) (i : Z) (s : sudoku) : option bool :=
  or_else (bit (columns s) c_i i)
    (or_else (bit (rows s) r_i i) (bit (subgrid s) s_i i)).

(** [s->columns[c_i].set(i); s->rows[r_i].set(i); s->subgrid[s_i].set(i);
    s->grid[p] = i+1;] *)
Definition place (p c_i r_i s_i : nat) (i : nat) (s : sudoku) : sudoku :=
  set_grid p (Z.of_nat i + 1) (set_bits c_i r_i s_i (Z.of_nat i) s).

(** [s->columns[c_i].reset(i); s->rows[r_i].reset(i);
    s->subgrid[s_i].reset(i); s->grid[p] = 0;] *)
Definition undo (p c_i r_i s_i : nat) (i : nat) (s : sudoku) : sudoku :=
  set_grid p 0 (reset_bits c_i r_i s_i (Z.of_nat i) s).

(** The body of the loop of [solve] for the candidates [i], [i+1], ...,
    [n] of them; [rec] is the call [solve(p+1, s)]. *)
Fixpoint solve_loop (rec : sudoku → option (bool * sudoku))
    (p c_i r_i s_i : nat) (n : nat) (i : nat) (s : sudoku)
    : option (bool * sudoku) :=
  match n with
  | O => Some (false, s)
  | S n' =>
      blk ← blocked c_i r_i s_i (Z.of_nat i) s;
      if blk : bool then solve_loop rec p c_i r_i s_i n' (S i) s
      else
        r ← rec (place p c_i r_i s_i i s);
        if r.1 : bool then Some (true, r.2)
        else solve_loop rec p c_i r_i s_i n' (S i) (undo p c_i r_i s_i i r.2)
  end.

Fixpoint solve_fuel (fuel : nat) (p : nat) (s : sudoku)
    : option (bool * sudoku) :=
  match fuel with
  | O => None
  | S fuel' =>
      if (p =? 81)%nat then Some (true, s)
      else
        v ← grid s !! p;
        if 0 <? v then solve_fuel fuel' (p + 1) s
        else
          let c_i := (p mod 9)%nat in
          let r_i := (p / 9)%nat in
          s_i ← ninths !! p;
          solve_loop (solve_fuel fuel' (p + 1)) p c_i r_i s_i 9 0 s
  end.

(** [solve(p, s)]: from position [p] the calls nest at most [81 - p] deep
    below the first one. *)
Definition solve (p : nat) (s : sudoku) : option (bool * sudoku) :=
  solve_fuel (S (81 - p)) p s.

(** The state of [main] before [readInput]: the bitsets are empty, the
    grid holds whatever the stack held. *)
Definition fresh (g : list Z) : sudoku :=
  {| grid := g; columns := replicate 9 0; rows := replicate 9 0;
     subgrid := replicate 9 0 |}.

Definition example_input : string :=
  "53--7----6--195----98----6-8---6---34--8-3--17---2---6-6----28----419--5----8--79".

Definition example_solution : list Z := [
  5; 3; 4; 6; 7; 8; 9; 1; 2;
  6; 7; 2; 1; 9; 5; 3; 4; 8;
  1; 9; 8; 3; 4; 2; 5; 6; 7;
  8; 5; 9; 7; 6; 1; 4; 2; 3;
  4; 2; 6; 8; 5; 3; 7; 9; 1;
  7; 1; 3; 9; 2; 4; 8; 5; 6;
  9; 6; 1; 5; 3; 7; 2; 8; 4;
  2; 8; 7; 4; 1; 9; 6; 3; 5;
  3; 4; 5; 2; 8; 6; 1; 7; 9 ].

(** ** The states the search goes through *)

(** [solve] again, returning besides its result the states it went
    through: the state at the entry of every call, the state after every
    undoing, and the state at the return of every call that ran the loop. *)
Fixpoint solve_loop_log (rec : sudoku → option (bool * sudoku * list sudoku))
    (p c_i r_i s_i : nat) (n : nat) (i : nat) (s : sudoku)
    : option (bool * sudoku * list sudoku) :=
  match n with
  | O => Some (false, s, [])
  | S n' =>
      blk ← blocked c_i r_i s_i (Z.of_nat i) s;
      if blk : bool then solve_loop_log rec p c_i r_i s_i n' (S i) s
      else
        r ← rec (place p c_i r_i s_i i s);
        if r.1.1 : bool then Some (true, r.1.2, r.2)
        else
          let s := undo p c_i r_i s_i i r.1.2 in
          l ← solve_loop_log rec p c_i r_i s_i n' (S i) s;
          Some (l.1.1, l.1.2, r.2 ++ s :: l.2)
  end.

Fixpoint solve_fuel_log (fuel : nat) (p : nat) (s : sudoku)
    : option (bool * sudoku * list sudoku) :=
  match fuel with
  | O => None
  | S fuel' =>
      if (p =? 81)%nat then Some (true, s, [s])
      else
        v ← grid s !! p;
        if 0 <? v then
          r ← solve_fuel_log fuel' (p + 1) s; Some (r.1.1, r.1.2, s :: r.2)
        else
          s_i ← ninths !! p;
          r ← solve_loop_log (solve_fuel_log fuel' (p + 1)) p
                 (p mod 9) (p / 9) s_i 9 0 s;
          Some (r.1.1, r.1.2, s :: r.2 ++ [r.1.2])
  end.

(** ** The invariant and the specification of the search *)

(** No cell is negative: the cells of the data model hold 0..9. *)
Definition cells_nonneg (s : sudoku) : Prop := Forall (λ v, 0 ≤ v) (grid s).

(** The column, the row and the subgrid of position [p]. *)
Definition col_of (p : nat) : nat := (p mod 9)%nat.
Definition row_of (p : nat) : nat := (p / 9)%nat.
Definition box_of (p : nat) : nat := default 0%nat (ninths !! p).

(** The cells [0..n-1] hold 0 (empty) or a digit. *)
Definition cell_ok (n : nat) (g : list Z) : Prop :=
  ∀ (q : nat) (v : Z), (q < n)%nat → g !! q = Some v → 0 ≤ v ≤ 9.

(** A family of bitsets is in sync with the cells [0..n-1] of the grid:
    bit [d-1] of set [k] is set exactly when digit [d] is in a cell of
    unit [k], [u] giving the unit (column, row or subgrid) of a cell. *)
Definition sync_family (u : nat → nat) (n : nat) (g sets : list Z) : Prop :=
  ∀ (k : nat) (d : Z), (k < 9)%nat → 1 ≤ d ≤ 9 →
    bit sets k (d - 1) = Some true ↔
    ∃ q : nat, (q < n)%nat ∧ u q = k ∧ g !! q = Some d.

Definition sync_upto (n : nat) (s : sudoku) : Prop :=
  sync_family col_of n (grid s) (columns s) ∧
  sync_family row_of n (grid s) (rows s) ∧
  sync_family box_of n (grid s) (subgrid s).

(** No two of the cells [0..n-1] that share a column, a row or a subgrid
    hold the same digit. *)
Definition unique_upto (n : nat) (g : list Z) : Prop :=
  ∀ (q1 q2 : nat) (d : Z), (q1 < n)%nat → (q2 < n)%nat → q1 ≠ q2 → 0 < d →
    g !! q1 = Some d → g !! q2 = Some d →
    col_of q1 ≠ col_of q2 ∧ row_of q1 ≠ row_of q2 ∧ box_of q1 ≠ box_of q2.

Definition consistent_upto (n : nat) (s : sudoku) : Prop :=
  wf_sudoku s ∧ cell_ok n (grid s) ∧ sync_upto n s ∧ unique_upto n (grid s).

(** The invariant of the search. *)
Definition consistent (s : sudoku) : Prop := consistent_upto 81 s.

(** Cell [p] counts for nothing among the cells [0..n-1]. *)
Definition vacant (n : nat) (g : list Z) (p : nat) : Prop :=
  ∀ d : Z, 0 < d → ¬ ((p < n)%nat ∧ g !! p = Some d).

(** The cells [0..n'-1] are the cells [0..n-1] and cell [p]. *)
Definition adds (n n' p : nat) : Prop :=
  (p < n')%nat ∧ ∀ q : nat, q ≠ p → (q < n')%nat ↔ (q < n)%nat.

(** Every filled cell of [g] holds the same digit in [g']. *)
Definition keeps (g g' : list Z) : Prop :=
  ∀ (q : nat) (v : Z), g !! q = Some v → 0 < v → g' !! q = Some v.

(** A complete grid that obeys the rules of sudoku. *)
Definition solution (g : list Z) : Prop :=
  length g = 81%nat ∧ (∀ (q : nat) (v : Z), g !! q = Some v → 1 ≤ v ≤ 9) ∧
  unique_upto 81 g.

(** [g] is a valid completion of the grid [g0]. *)
Definition completion (g0 g : list Z) : Prop := solution g ∧ keeps g0 g.

(** The order of grids read as the sequence of their digits. *)
Fixpoint lex_leb (l1 l2 : list Z) : bool :=
  match l1, l2 with
  | [], _ => true
  | _ :: _, [] => false
  | x :: l1', y :: l2' => (x <? y) || ((x =? y) && lex_leb l1' l2')
  end.

(** The cells from [p] on are filled. *)
Definition filled_from (p : nat) (g : list Z) : Prop :=
  ∀ q : nat, (p ≤ q < 81)%nat → ∃ v : Z, g !! q = Some v ∧ 0 < v.

(** Candidate [j] led nowhere: it was skipped, or the search below it
    failed. *)
Definition refuted (rec : sudoku → option (bool * sudoku))
    (p c_i r_i s_i : nat) (s : sudoku) (j : nat) : Prop :=
  blocked c_i r_i s_i (Z.of_nat j) s = Some true ∨
  (blocked c_i r_i s_i (Z.of_nat j) s = Some false ∧
   rec (place p c_i r_i s_i j s) = Some (false, place p c_i r_i s_i j s)).

(** What a call of [solve] on a consistent state returns. *)
Definition solve_post (p : nat) (s : sudoku) (res : bool * sudoku) : Prop :=
  if res.1 then
    consistent res.2 ∧ keeps (grid s) (grid res.2) ∧
    filled_from p (grid res.2) ∧
    ∀ g, completion (grid s) g →
         lex_leb (drop p (grid res.2)) (drop p g) = true
  else res.2 = s ∧ ∀ g, ¬ completion (grid s) g.

(** ** Concrete puzzles *)

Definition zero_grid : list Z := replicate 81 0.

(** The state [readInput] leaves (on a grid that held zeros). *)
Definition state_after (input : string) : sudoku :=
  match readInput input (fresh zero_grid) "" with
  | Some (_, s, _) => s
  | None => fresh zero_grid
  end.

(** The state after the first [n] turns of the loop of [readInput]. *)
Definition state_after_turns (n : nat) (input : string) : sudoku :=
  match readInput_loop n input 0 (fresh zero_grid) "" with
  | Some (_, s, _) => s
  | None => fresh zero_grid
  end.

Definition example_state : sudoku :=
  Eval vm_compute in state_after example_input.

Definition example_final : sudoku :=
  Eval vm_compute in
    match solve 0 example_state with
    | Some (_, s) => s
    | None => example_state
    end.

(** The digit 5 twice in row 1. *)
Definition row_duplicate_input : string :=
  "55-------------------------------------------------------------------------------".

(** A third 5 in the column of the first one and in the row of the second
    one. *)
Definition triple_input : string :=
  "----5----5---5-------------------------------------------------------------------".

(** A second 5 in subgrid 1, in column 2. *)
Definition subgrid_duplicate_input : string :=
  "5---------5----------------------------------------------------------------------".

(** A legal grid whose ninth cell can hold no digit. *)
Definition dead_end_input : string :=
  "12345678---------9---------------------------------------------------------------".

Definition dead_end_state : sudoku :=
  Eval vm_compute in state_after dead_end_input.

Definition triple_state : sudoku :=
  Eval vm_compute in state_after_turns 13 triple_input.

Definition subgrid_duplicate_state : sudoku :=
  Eval vm_compute in state_after_turns 10 subgrid_duplicate_input.

Definition row_duplicate_state : sudoku :=
  Eval vm_compute in state_after row_duplicate_input.

(** ** Output and the program *)

(** The text written to [cout] is threaded through the functions that
    write: each takes the text written so far and returns it extended. *)

(** The character that ["\n"] and [std::endl] write, and ["\t"]. *)
Definition endl : string := String "010"%char "".
Definition tab : string := String "009"%char "".

Definition printGrid_body (grid : list Z) (i : nat) (cout : string)
    : option string :=
  let cout := if (i mod 9 =? 0)%nat then cout +:+ endl else cout in
  v ← grid !! i;
  Some ((cout +:+ to_string v) +:+ " ").

(** [n] turns of the loop of [printGrid], from index [i] on. *)
Fixpoint printGrid_loop (n : nat) (grid : list Z) (i : nat) (cout : string)
    : option string :=
  match n with
  | O => Some cout
  | S n' =>
      cout ← printGrid_body grid i cout;
      printGrid_loop n' grid (S i) cout
  end.

Definition printGrid (grid : list Z) (cout : string) : option string :=
  cout ← printGrid_loop 81 grid 0 cout;
  Some (cout +:+ endl).

Definition printUsage (cout : string) : string :=
  ((((cout
      +:+ ("Usage: dusudoku <sudoku_string>" +:+ endl))
     +:+ (tab +:+ "Where <sudoku_string> is an 81 character long string of numerals" +:+ endl))
    +:+ (tab +:+ "and/or dashes representing a valid sudoku puzzle." +:+ endl))
   +:+ (tab +:+ "example: dusudoku 53--7----6--195----98----6-8---6---34--8-3--17---2---6-6----28----419--5----8--79"))
  +:+ endl.

(** [main]: [argv] holds the [argc] arguments, the name of the program
    first; [g0] is what the grid of the local [sudoku s] holds before
    [readInput]; the result is the exit code and the text written. *)
Definition main (argv : list string) (g0 : list Z) (cout : string)
    : option (Z * string) :=
  if (length argv <=? 1)%nat then Some (1, printUsage cout)
  else
    input ← argv !! 1%nat;
    r ← readInput input (fresh g0) "";
    if negb r.1.1 then
      Some (1, printUsage (((cout +:+ "Error: ") +:+ r.2) +:+ endl))
    else
      let cout := cout +:+ "solving..." in
      r' ← solve 0 r.1.2;
      if r'.1 : bool then
        cout ← printGrid (grid r'.2) ((cout +:+ "solution found!") +:+ endl);
        Some (0, cout)
      else Some (0, (cout +:+ "no solution") +:+ endl).

(** ** What the validator accepts and what the printer writes *)

(** The grid an input denotes: the value of each of its first 81
    characters. *)
Definition parse_grid (input : string) : list Z :=
  (λ i, num_of (char_at input i)) <$> seq 0 81.

(** A well-formed puzzle: 81 characters, each a digit or a dash, no digit
    twice in a row, a column or a subgrid. *)
Definition accepted (input : string) : Prop :=
  strlen input = 81%nat ∧
  (∀ i : nat, (i < 81)%nat → invalid_char (char_at input i) = false) ∧
  unique_upto 81 (parse_grid input).

(** ['0'] written as ['-']. *)
Definition dash_for_zero (c : ascii) : ascii :=
  if Ascii.eqb c "0"%char then "-"%char else c.

Fixpoint dashes_for_zeros (input : string) : string :=
  match input with
  | EmptyString => EmptyString
  | String c rest => String (dash_for_zero c) (dashes_for_zeros rest)
  end.

(** A text without its spaces and newlines. *)
Fixpoint strip_blanks (text : string) : string :=
  match text with
  | EmptyString => EmptyString
  | String c rest =>
      if Ascii.eqb c " "%char || Ascii.eqb c "010"%char
      then strip_blanks rest
      else String c (strip_blanks rest)
  end.

(** The character of a digit, and the string of the digits of a grid. *)
Definition digit_char (v : Z) : ascii := ascii_of_N (Z.to_N (v + NUMERAL_ZERO)).

Definition digits (g : list Z) : string :=
  foldr (λ v text, String (digit_char v) text) EmptyString g.

(** The concatenation of a list of texts. *)
Definition cat (texts : list string) : string :=
  foldr String.append EmptyString texts.

(** A row as [printGrid] writes it, and the nine rows of a grid. *)
Definition row_text (row : list Z) : string :=
  endl +:+ cat ((λ v, to_string v +:+ " ") <$> row).

Definition grid_rows (g : list Z) : list (list Z) :=
  (λ r, take 9 (drop (9 * r) g)) <$> seq 0 9.

(** A grid all of whose cells hold 5: full and illegal. *)
Definition fives : sudoku :=
  {| grid := replicate 81 5; columns := replicate 9 0;
     rows := replicate 9 0; subgrid := replicate 9 0 |}.

(** A legal grid without solution in which the search has to place and to
    undo: the cells 1, 2 and 9 of row 1 are empty and only 1 and 2 are left
    for them. *)
Definition backtrack_input : string :=
  "--345678---------9---------9---------------------------9-------------------------".

Definition backtrack_state : sudoku :=
  Eval vm_compute in state_after backtrack_input.

(** The solution of the example without its third cell. *)
Definition one_gap_input : string :=
  "53-678912672195348198342567859761423426853791713924856961537284287419635345286179".

Definition one_gap_state : sudoku :=
  Eval vm_compute in state_after one_gap_input.

(** ** readInput with every array access checked *)

(** [readInput] again, with every access of the source written out with
    its bounds: [input[i]] lies within the string and its NUL, [s->grid[i]]
    within the 81 cells, the three bitsets within their arrays of 9, the
    bit within the 9 bits of a bitset, [ninths[i]] within the table. An
    access outside of its bounds gives [None]. *)
Definition input_at (input : string) (i : nat) : option ascii :=
  if (i <=? strlen input)%nat then Some (char_at input i) else None.

Definition write_grid (i : nat) (v : Z) (s : sudoku) : option sudoku :=
  if (i <? length (grid s))%nat then Some (set_grid i v s) else None.

Definition bit_checked (sets : list Z) (k : nat) (j : Z) : option bool :=
  if (0 <=? j) && (j <? 9) then bit sets k j else None.

Definition set_bits_checked (c_i r_i s_i : nat) (j : Z) (s : sudoku)
    : option sudoku :=
  if (0 <=? j) && (j <? 9) && (c_i <? length (columns s))%nat
     && (r_i <? length (rows s))%nat && (s_i <? length (subgrid s))%nat
  then Some (set_bits c_i r_i s_i j s) else None.

Definition readInput_body_checked (input : string) (i : nat) (s : sudoku)
    : option outcome :=
  ch ← input_at input i;
  if invalid_char ch then Some (ReturnFalse s (character_error ch))
  else
    let num := num_of ch in
    s ← write_grid i num s;
    if 0 <? num then
      let c_i := (i mod 9)%nat in
      let r_i := (i / 9)%nat in
      s_i ← ninths !! i;
      in_column ← bit_checked (columns s) c_i (num - 1);
      if in_column : bool then Some (ReturnFalse s (column_error num c_i))
      else
        in_row ← bit_checked (rows s) r_i (num - 1);
        if in_row : bool then Some (ReturnFalse s (row_error num r_i))
        else
          in_subgrid ← bit_checked (subgrid s) s_i (num - 1);
          if in_subgrid : bool
          then Some (ReturnFalse s (subgrid_error num c_i))
          else
            s ← set_bits_checked c_i r_i s_i (num - 1) s;
            Some (Continue s)
    else Some (Continue s).

Fixpoint readInput_loop_checked (n : nat) (input : string) (i : nat)
    (s : sudoku) (err : string) : option (bool * sudoku * string) :=
  match n with
  | O => Some (true, s, err)
  | S n' =>
      o ← readInput_body_checked input i s;
      match o with
      | ReturnFalse s' err' => Some (false, s', err')
      | Continue s' => readInput_loop_checked n' input (S i) s' err
      end
  end.

Definition readInput_checked (input : string) (s : sudoku) (err : string)
    : option (bool * sudoku * string) :=
  if negb (strlen input =? 81)%nat
  then Some (false, s, "The expected input length is 81 characters"%string)
  else readInput_loop_checked 81 input 0 s err.

(** ** Bitsets and array updates *)

Lemma clearbit_setbit (b i : Z) :
  0 ≤ i → Z.testbit b i = false → Z.clearbit (Z.setbit b i) i = b.
Proof.
  intros Hi Hb. apply Z.bits_inj'. intros n Hn.
  rewrite Z.clearbit_eqb, Z.setbit_eqb by done.
  destruct (Z.eqb_spec i n) as [->|]; simpl; [done|].
  by rewrite andb_true_r.
Qed.

Lemma bit_Some (sets : list Z) (k : nat) (i : Z) (x : bool) :
  bit sets k i = Some x ↔ ∃ b, sets !! k = Some b ∧ Z.testbit b i = x.
Proof.
  unfold bit. destruct (sets !! k) as [b|]; simpl; split.
  - intros [= <-]. eauto.
  - intros (b' & [= <-] & <-). done.
  - done.
  - intros (b' & [=] & _).
Qed.

Lemma alter_clearbit_setbit (sets : list Z) (k : nat) (i : Z) :
  0 ≤ i → bit sets k i = Some false →
  alter (λ b, Z.clearbit b i) k (alter (λ b, Z.setbit b i) k sets) = sets.
Proof.
  intros Hi (b & Hk & Hb)%bit_Some. rewrite list_alter_alter_eq.
  apply list_eq. intros j. destruct (decide (k = j)) as [<-|Hne].
  - rewrite list_lookup_alter_eq, Hk. simpl. by rewrite clearbit_setbit.
  - by rewrite list_lookup_alter_ne.
Qed.

Lemma or_else_false (a b : option bool) :
  or_else a b = Some false ↔ a = Some false ∧ b = Some false.
Proof. destruct a as [[]|], b as [[]|]; simpl; split; (done || by intros []). Qed.

Lemma or_else_true (a b : option bool) :
  or_else a b = Some true ↔ a = Some true ∨ (a = Some false ∧ b = Some true).
Proof.
  destruct a as [[]|], b as [[]|]; simpl; split;
    (by auto) || (by intros [|[]]).
Qed.

Lemma blocked_false (c_i r_i s_i : nat) (i : Z) (s : sudoku) :
  blocked c_i r_i s_i i s = Some false ↔
  bit (columns s) c_i i = Some false ∧ bit (rows s) r_i i = Some false ∧
  bit (subgrid s) s_i i = Some false.
Proof. unfold blocked. rewrite !or_else_false. done. Qed.

Lemma undo_place (p c_i r_i s_i i : nat) (s : sudoku) :
  grid s !! p = Some 0 →
  blocked c_i r_i s_i (Z.of_nat i) s = Some false →
  undo p c_i r_i s_i i (place p c_i r_i s_i i s) = s.
Proof.
  intros Hp (Hc & Hr & Hs)%blocked_false. destruct s as [g cs rs bs].
  unfold undo, place, set_grid, set_bits, reset_bits; simpl in *.
  rewrite !alter_clearbit_setbit by (done || lia).
  rewrite list_insert_insert_eq, list_insert_id by done. done.
Qed.

Lemma solve_loop_unfold rec p c_i r_i s_i n i s :
  solve_loop rec p c_i r_i s_i (S n) i s =
  blk ← blocked c_i r_i s_i (Z.of_nat i) s;
  if blk : bool then solve_loop rec p c_i r_i s_i n (S i) s
  else
    r ← rec (place p c_i r_i s_i i s);
    if r.1 : bool then Some (true, r.2)
    else solve_loop rec p c_i r_i s_i n (S i) (undo p c_i r_i s_i i r.2).
Proof. reflexivity. Qed.

Lemma solve_fuel_unfold fuel p s :
  solve_fuel (S fuel) p s =
  if (p =? 81)%nat then Some (true, s)
  else
    v ← grid s !! p;
    if 0 <? v then solve_fuel fuel (p + 1) s
    else
      s_i ← ninths !! p;
      solve_loop (solve_fuel fuel (p + 1)) p (p mod 9) (p / 9) s_i 9 0 s.
Proof. reflexivity. Qed.

Global Opaque solve_loop solve_fuel.
Global Arguments Nat.modulo : simpl never.
Global Arguments Nat.div : simpl never.

(** ** Failure leaves the state as it was *)

Lemma cells_nonneg_place p c_i r_i s_i i s :
  cells_nonneg s → cells_nonneg (place p c_i r_i s_i i s).
Proof. intros H. apply Forall_insert; [exact H | lia]. Qed.

Lemma solve_loop_false rec p c_i r_i s_i n i s s' :
  (∀ s1 s2, cells_nonneg s1 → rec s1 = Some (false, s2) → s2 = s1) →
  cells_nonneg s → grid s !! p = Some 0 →
  solve_loop rec p c_i r_i s_i n i s = Some (false, s') → s' = s.
Proof.
  intros Hrec. revert i s. induction n as [|n IH]; intros i s Hs Hp.
  { by intros [= <-]. }
  rewrite solve_loop_unfold.
  destruct (blocked _ _ _ _ s) as [[]|] eqn:Hb; simpl; [by eauto| |done].
  destruct (rec _) as [[[] s2]|] eqn:Hr; simpl; [done| |done].
  apply Hrec in Hr as ->; [|by apply cells_nonneg_place].
  rewrite undo_place by done. by apply IH.
Qed.

Lemma solve_fuel_false fuel p s s' :
  cells_nonneg s → solve_fuel fuel p s = Some (false, s') → s' = s.
Proof.
  revert p s s'. induction fuel as [|fuel IH]; intros p s s' Hs; [done|].
  rewrite solve_fuel_unfold. destruct (p =? 81)%nat; [done|].
  destruct (grid s !! p) as [v|] eqn:Hp; simpl; [|done].
  destruct (Z.ltb_spec 0 v) as [Hv|Hv]; [by apply IH|].
  destruct (ninths !! p) as [s_i|]; simpl; [|done].
  assert (v = 0) as ->.
  { unfold cells_nonneg in Hs. rewrite Forall_lookup in Hs.
    specialize (Hs _ _ Hp). simpl in Hs. lia. }
  intros Hloop. eapply solve_loop_false in Hloop; [done| |done..].
  intros s1 s2. apply IH.
Qed.

(** ** The grid and its three caches *)

Lemma adds_same n p : (p < n)%nat → adds n n p.
Proof. by split. Qed.

Lemma adds_next n : adds n (S n) n.
Proof. split; [lia|]. intros q Hq. lia. Qed.

Lemma ninths_lt (p b : nat) : ninths !! p = Some b → (p < 81 ∧ b < 9)%nat.
Proof.
  intros Hp. split; [by apply lookup_lt_Some in Hp|].
  assert (Forall (λ b, b < 9)%nat ninths) as Hall.
  { apply (bool_decide_unpack _). vm_compute. exact I. }
  rewrite Forall_lookup in Hall. exact (Hall _ _ Hp).
Qed.

Lemma box_of_ninths (p b : nat) : ninths !! p = Some b → box_of p = b.
Proof. unfold box_of. by intros ->. Qed.

Lemma bit_alter_setbit (sets : list Z) (k k' : nat) (i j : Z) :
  0 ≤ i →
  bit (alter (λ b, Z.setbit b i) k sets) k' j =
  if decide (k = k') then x ← bit sets k' j; Some ((i =? j) || x)
  else bit sets k' j.
Proof.
  intros Hi. unfold bit. case_decide as Hk.
  - subst k'. rewrite list_lookup_alter_eq.
    destruct (sets !! k) as [b|]; simpl; [|done].
    by rewrite Z.setbit_eqb.
  - by rewrite list_lookup_alter_ne.
Qed.

Lemma bit_is_Some (sets : list Z) (k : nat) (i : Z) :
  (k < length sets)%nat → ∃ x, bit sets k i = Some x.
Proof.
  intros [b Hb]%lookup_lt_is_Some_2. unfold bit. rewrite Hb. simpl. eauto.
Qed.

Section family.
Variable u : nat → nat.

Lemma sync_family_ext n n' (g g' sets : list Z) :
  (∀ (q : nat) (d : Z), 1 ≤ d ≤ 9 →
     ((q < n)%nat ∧ g !! q = Some d) ↔ ((q < n')%nat ∧ g' !! q = Some d)) →
  sync_family u n g sets → sync_family u n' g' sets.
Proof.
  intros Hext Hsync k d Hk Hd. rewrite (Hsync k d Hk Hd). split.
  - intros (q & Hq & Hu & Hg). exists q.
    destruct (proj1 (Hext q d Hd)); done.
  - intros (q & Hq & Hu & Hg). exists q.
    destruct (proj2 (Hext q d Hd)); done.
Qed.

Lemma sync_family_add n n' (g sets : list Z) (p : nat) (d0 : Z) :
  sync_family u n g sets → adds n n' p → vacant n g p →
  (p < length g)%nat → length sets = 9%nat → 1 ≤ d0 ≤ 9 →
  sync_family u n' (<[p := d0]> g)
    (alter (λ b, Z.setbit b (d0 - 1)) (u p) sets).
Proof.
  intros Hsync [Hp Hadd] Hvac Hlen Hsets Hd0 k d Hk Hd.
  rewrite bit_alter_setbit by lia.
  assert ((∃ q : nat, (q < n')%nat ∧ u q = k ∧ <[p:=d0]> g !! q = Some d) ↔
          (u p = k ∧ d = d0) ∨
          (∃ q : nat, (q < n)%nat ∧ u q = k ∧ g !! q = Some d)) as ->.
  { split.
    - intros (q & Hq & Hu & Hg). destruct (decide (q = p)) as [->|Hne].
      + rewrite list_lookup_insert_eq in Hg by done. left.
        split; [done|congruence].
      + rewrite list_lookup_insert_ne in Hg by done. right. exists q.
        by rewrite <- (Hadd q Hne).
    - intros [[Hu ->]|(q & Hq & Hu & Hg)].
      + exists p. by rewrite list_lookup_insert_eq.
      + assert (q ≠ p) as Hne.
        { intros ->. apply (Hvac d); [lia|done]. }
        exists q. rewrite list_lookup_insert_ne by done.
        by rewrite (Hadd q Hne). }
  rewrite <- (Hsync k d Hk Hd).
  destruct (bit_is_Some sets k (d - 1)) as [x Hx]; [lia|].
  rewrite Hx. simpl. case_decide as Hu.
  - destruct (Z.eqb_spec (d0 - 1) (d - 1)), x; simpl; split;
      (by auto) || (by intros [[]|]; (done || lia)) || idtac.
    all: intros _; left; split; [done|lia].
  - split; [by right|]. by intros [[]|].
Qed.

Lemma sync_family_clear n (g sets : list Z) (k : nat) (d : Z) (q : nat) :
  sync_family u n g sets → bit sets k (d - 1) = Some false →
  (k < 9)%nat → 1 ≤ d ≤ 9 → (q < n)%nat → g !! q = Some d → u q ≠ k.
Proof.
  intros Hsync Hbit Hk Hd Hq Hg Hu.
  assert (bit sets k (d - 1) = Some true) as Hset.
  { apply Hsync; [done..|]. by exists q. }
  congruence.
Qed.
End family.

Lemma unique_upto_add n n' (g : list Z) (p : nat) (d0 : Z) :
  unique_upto n g → adds n n' p → vacant n g p →
  (∀ q : nat, (q < n)%nat → q ≠ p → g !! q = Some d0 →
     col_of q ≠ col_of p ∧ row_of q ≠ row_of p ∧ box_of q ≠ box_of p) →
  unique_upto n' (<[p := d0]> g).
Proof.
  intros Huniq [Hp Hadd] Hvac Hfree q1 q2 d H1 H2 Hne Hd Hg1 Hg2.
  apply list_lookup_insert_Some in Hg1 as [(-> & -> & Hlen)|[Hne1 Hg1]];
    apply list_lookup_insert_Some in Hg2 as [(? & ? & _)|[Hne2 Hg2]]; subst.
  - done.
  - destruct (Hfree q2) as (? & ? & ?); [by apply Hadd|done..|].
    by repeat split.
  - destruct (Hfree q1) as (? & ? & ?); [by apply Hadd|done..|]. done.
  - apply (Huniq q1 q2 d); try done; by apply Hadd.
Qed.

Lemma cell_ok_add n n' (g : list Z) (p : nat) (d0 : Z) :
  cell_ok n g → adds n n' p → 0 ≤ d0 ≤ 9 → cell_ok n' (<[p := d0]> g).
Proof.
  intros Hok [Hp Hadd] Hd0 q v Hq Hg.
  apply list_lookup_insert_Some in Hg as [(-> & -> & Hlen)|[Hne Hg]]; [done|].
  apply (Hok q v); [|done]. by apply Hadd.
Qed.

Lemma wf_set_grid p v s : wf_sudoku s → wf_sudoku (set_grid p v s).
Proof.
  intros (? & ? & ? & ?). unfold wf_sudoku; simpl.
  by rewrite length_insert.
Qed.

Lemma wf_set_bits c_i r_i s_i i s :
  wf_sudoku s → wf_sudoku (set_bits c_i r_i s_i i s).
Proof.
  intros (? & ? & ? & ?). unfold wf_sudoku; simpl.
  by rewrite !length_alter.
Qed.

Lemma wf_reset_bits c_i r_i s_i i s :
  wf_sudoku s → wf_sudoku (reset_bits c_i r_i s_i i s).
Proof.
  intros (? & ? & ? & ?). unfold wf_sudoku; simpl.
  by rewrite !length_alter.
Qed.

(** Writing a digit that none of the three bitsets of the cell holds, into
    a cell that counted for nothing, keeps grid and caches consistent. *)
Lemma consistent_upto_add n n' (s : sudoku) (p b : nat) (d0 : Z) :
  consistent_upto n s → adds n n' p → vacant n (grid s) p →
  ninths !! p = Some b → 1 ≤ d0 ≤ 9 →
  bit (columns s) (p mod 9) (d0 - 1) = Some false →
  bit (rows s) (p / 9) (d0 - 1) = Some false →
  bit (subgrid s) b (d0 - 1) = Some false →
  consistent_upto n'
    (set_bits (p mod 9) (p / 9) b (d0 - 1) (set_grid p d0 s)).
Proof.
  intros (Hwf & Hok & (Hc & Hr & Hb) & Huniq) Hadd Hvac Hnin Hd0 Bc Br Bb.
  destruct (ninths_lt _ _ Hnin) as [Hp Hb9].
  pose proof Hwf as (Hg & Hcs & Hrs & Hbs).
  assert (p mod 9 < 9)%nat by (apply Nat.mod_upper_bound; lia).
  assert (p / 9 < 9)%nat by (apply Nat.Div0.div_lt_upper_bound; lia).
  split; [by apply wf_set_bits, wf_set_grid|].
  split; [apply (cell_ok_add n); (done || lia)|].
  split; [split_and!; simpl|].
  - apply (sync_family_add col_of n); (done || lia).
  - apply (sync_family_add row_of n); (done || lia).
  - rewrite <- (box_of_ninths _ _ Hnin).
    apply (sync_family_add box_of n); (done || lia).
  - simpl. apply (unique_upto_add n); [done..|]. intros q Hq Hne Hgq.
    split_and!.
    + by apply (sync_family_clear col_of n (grid s) (columns s) _ d0).
    + by apply (sync_family_clear row_of n (grid s) (rows s) _ d0).
    + rewrite (box_of_ninths _ _ Hnin).
      by apply (sync_family_clear box_of n (grid s) (subgrid s) _ d0).
Qed.

(** Writing 0 into the next cell keeps grid and caches consistent. *)
Lemma consistent_upto_skip n (s : sudoku) :
  (n < 81)%nat → consistent_upto n s →
  consistent_upto (S n) (set_grid n 0 s).
Proof.
  intros Hn (Hwf & Hok & (Hc & Hr & Hb) & Huniq).
  assert (∀ (q : nat) (d : Z), 0 < d →
    ((q < n)%nat ∧ grid s !! q = Some d) ↔
    ((q < S n)%nat ∧ <[n := 0]> (grid s) !! q = Some d)) as Hext.
  { intros q d Hd. rewrite list_lookup_insert_Some. split.
    - intros [Hq Hg]. split; [lia|]. right. split; [lia|done].
    - intros [Hq [(-> & <- & _)|[Hne Hg]]]; [lia|]. split; [lia|done]. }
  split; [by apply wf_set_grid|].
  split; [apply (cell_ok_add n); [done|apply adds_next|lia]|].
  split; [split_and!; simpl|].
  - apply (sync_family_ext _ n (S n) (grid s)); [|done].
    intros q d Hd. apply Hext. lia.
  - apply (sync_family_ext _ n (S n) (grid s)); [|done].
    intros q d Hd. apply Hext. lia.
  - apply (sync_family_ext _ n (S n) (grid s)); [|done].
    intros q d Hd. apply Hext. lia.
  - simpl. intros q1 q2 d H1 H2 Hne Hd Hg1 Hg2.
    destruct (proj2 (Hext q1 d Hd)) as [? ?]; [done|].
    destruct (proj2 (Hext q2 d Hd)) as [? ?]; [done|].
    by apply (Huniq q1 q2 d).
Qed.

(** ** What the search leaves alone *)

Lemma keeps_refl g : keeps g g.
Proof. by intros q v. Qed.

Lemma keeps_trans g1 g2 g3 : keeps g1 g2 → keeps g2 g3 → keeps g1 g3.
Proof. intros H12 H23 q v Hq Hv. apply H23; [|done]. by apply H12. Qed.

(** Writing into a cell that was not filled. *)
Lemma keeps_insert (g : list Z) (p : nat) (x : Z) :
  (∀ v, g !! p = Some v → ¬ 0 < v) → keeps g (<[p := x]> g).
Proof.
  intros Hp q v Hq Hv. destruct (decide (p = q)) as [<-|Hne].
  - by destruct (Hp v).
  - by rewrite list_lookup_insert_ne.
Qed.

Lemma keeps_insert_r (g g' : list Z) (p : nat) (x : Z) :
  (∀ v, g !! p = Some v → ¬ 0 < v) → keeps g g' → keeps g (<[p := x]> g').
Proof.
  intros Hp Hk q v Hq Hv. destruct (decide (p = q)) as [<-|Hne].
  - by destruct (Hp v).
  - rewrite list_lookup_insert_ne by done. by apply Hk.
Qed.

Lemma solve_loop_keeps rec p c_i r_i s_i n i s res :
  (∀ s1 r, rec s1 = Some r → keeps (grid s1) (grid r.2)) →
  (∀ v, grid s !! p = Some v → ¬ 0 < v) →
  solve_loop rec p c_i r_i s_i n i s = Some res →
  keeps (grid s) (grid res.2).
Proof.
  intros Hrec. revert i s. induction n as [|n IH]; intros i s Hp.
  { intros [= <-]. apply keeps_refl. }
  rewrite solve_loop_unfold.
  destruct (blocked _ _ _ _ s) as [[]|]; simpl; [by eauto| |done].
  destruct (rec _) as [[b2 s2]|] eqn:Hr; simpl; [|done].
  apply Hrec in Hr. simpl in Hr.
  assert (keeps (grid s) (grid s2)) as Hk.
  { eapply keeps_trans; [|exact Hr]. by apply keeps_insert. }
  destruct b2; [by intros [= <-]|]. intros Hloop.
  apply IH in Hloop.
  - eapply keeps_trans; [|exact Hloop]. simpl. by apply keeps_insert_r.
  - simpl. intros v [(_ & <- & _)|[? _]]%list_lookup_insert_Some; lia.
Qed.

Lemma solve_fuel_keeps fuel p s res :
  solve_fuel fuel p s = Some res → keeps (grid s) (grid res.2).
Proof.
  revert p s res. induction fuel as [|fuel IH]; intros p s res; [done|].
  rewrite solve_fuel_unfold. destruct (p =? 81)%nat.
  { intros [= <-]. apply keeps_refl. }
  destruct (grid s !! p) as [v|] eqn:Hp; simpl; [|done].
  destruct (Z.ltb_spec 0 v) as [Hv|Hv]; [by apply IH|].
  destruct (ninths !! p) as [s_i|]; simpl; [|done].
  apply solve_loop_keeps; [by eauto|]. intros v' Hv'. simplify_eq. lia.
Qed.

(** ** Termination *)

Lemma solve_loop_total rec p c_i r_i s_i n i s :
  (∀ s1, wf_sudoku s1 → ∃ r, rec s1 = Some r ∧ wf_sudoku r.2) →
  (c_i < 9)%nat → (r_i < 9)%nat → (s_i < 9)%nat → wf_sudoku s →
  ∃ res, solve_loop rec p c_i r_i s_i n i s = Some res ∧ wf_sudoku res.2.
Proof.
  intros Hrec Hc Hr Hb. revert i s.
  induction n as [|n IH]; intros i s Hwf; [by exists (false, s)|].
  rewrite solve_loop_unfold. pose proof Hwf as (Hg & Hcs & Hrs & Hbs).
  destruct (bit_is_Some (columns s) c_i (Z.of_nat i)) as [x1 H1]; [lia|].
  destruct (bit_is_Some (rows s) r_i (Z.of_nat i)) as [x2 H2]; [lia|].
  destruct (bit_is_Some (subgrid s) s_i (Z.of_nat i)) as [x3 H3]; [lia|].
  assert (∃ blk, blocked c_i r_i s_i (Z.of_nat i) s = Some blk) as [blk ->].
  { unfold blocked. rewrite H1, H2, H3. destruct x1, x2, x3; by eexists. }
  simpl. destruct blk; [by apply IH|].
  destruct (Hrec (place p c_i r_i s_i i s)) as ([b2 s2] & -> & Hwf2).
  { by apply wf_set_grid, wf_set_bits. }
  simpl in *. destruct b2; [by eexists|].
  apply IH. by apply wf_set_grid, wf_reset_bits.
Qed.

Lemma solve_fuel_total n p s :
  (p + n = 81)%nat → wf_sudoku s →
  ∃ res, solve_fuel (S n) p s = Some res ∧ wf_sudoku res.2.
Proof.
  revert p s. induction n as [|n IH]; intros p s Hp Hwf.
  { rewrite solve_fuel_unfold. replace p with 81%nat by lia. by eexists. }
  rewrite solve_fuel_unfold.
  destruct (Nat.eqb_spec p 81) as [|_]; [lia|].
  pose proof Hwf as (Hg & _).
  destruct (lookup_lt_is_Some_2 (grid s) p) as [v ->]; [lia|].
  destruct (lookup_lt_is_Some_2 ninths p) as [b Hb]; [simpl; lia|].
  simpl. destruct (0 <? v); [apply IH; (done || lia)|].
  rewrite Hb. simpl. apply solve_loop_total; try done.
  - intros s1 Hwf1. apply IH; (done || lia).
  - apply Nat.mod_upper_bound. lia.
  - apply Nat.Div0.div_lt_upper_bound. lia.
  - by apply ninths_lt in Hb as [_ ?].
Qed.

(** ** What the search finds *)

Lemma solve_loop_spec rec p c_i r_i s_i n i s res :
  (∀ s1 s2, cells_nonneg s1 → rec s1 = Some (false, s2) → s2 = s1) →
  cells_nonneg s → grid s !! p = Some 0 →
  solve_loop rec p c_i r_i s_i n i s = Some res →
  (res = (false, s) ∧
   ∀ j, (i ≤ j < i + n)%nat → refuted rec p c_i r_i s_i s j) ∨
  (∃ j s', res = (true, s') ∧ (i ≤ j < i + n)%nat ∧
     blocked c_i r_i s_i (Z.of_nat j) s = Some false ∧
     rec (place p c_i r_i s_i j s) = Some (true, s') ∧
     ∀ j', (i ≤ j' < j)%nat → refuted rec p c_i r_i s_i s j').
Proof.
  intros Hrec Hs Hp. revert i. induction n as [|n IH]; intros i.
  { intros [= <-]. left. split; [done|]. intros j Hj. lia. }
  rewrite solve_loop_unfold.
  destruct (blocked _ _ _ _ s) as [[]|] eqn:Hb; simpl; [| |done].
  - intros [[-> Hall]|(j & s' & -> & Hj & Hbj & Hrj & Hall)]%IH.
    + left. split; [done|]. intros j Hj.
      destruct (decide (j = i)) as [->|]; [by left|]. apply Hall. lia.
    + right. exists j, s'. do 4 (split; [done || lia|]).
      intros j' Hj'.
      destruct (decide (j' = i)) as [->|]; [by left|]. apply Hall. lia.
  - destruct (rec _) as [[[] s2]|] eqn:Hr; simpl; [| |done].
    + intros [= <-]. right. exists i, s2. do 4 (split; [done || lia|]).
      intros j' Hj'. lia.
    + pose proof Hr as Hr'.
      apply Hrec in Hr' as ->; [|by apply cells_nonneg_place].
      rewrite undo_place by done.
      intros [[-> Hall]|(j & s' & -> & Hj & Hbj & Hrj & Hall)]%IH.
      * left. split; [done|]. intros j Hj.
        destruct (decide (j = i)) as [->|]; [by right|]. apply Hall. lia.
      * right. exists j, s'. do 4 (split; [done || lia|]).
        intros j' Hj'.
        destruct (decide (j' = i)) as [->|]; [by right|]. apply Hall. lia.
Qed.

Lemma consistent_cells_nonneg s : consistent s → cells_nonneg s.
Proof.
  intros ((Hg & _) & Hok & _). apply Forall_lookup. intros q v Hq.
  apply (Hok q v) in Hq as [? _]; [done|].
  apply lookup_lt_Some in Hq. lia.
Qed.

Lemma place_eq p c_i r_i s_i j s :
  place p c_i r_i s_i j s =
  set_bits c_i r_i s_i (Z.of_nat j + 1 - 1) (set_grid p (Z.of_nat j + 1) s).
Proof.
  replace (Z.of_nat j + 1 - 1) with (Z.of_nat j) by lia. reflexivity.
Qed.

Lemma consistent_place p b j s :
  consistent s → grid s !! p = Some 0 → ninths !! p = Some b → (j < 9)%nat →
  blocked (p mod 9) (p / 9) b (Z.of_nat j) s = Some false →
  consistent (place p (p mod 9) (p / 9) b j s).
Proof.
  intros Hs Hp Hb Hj (Bc & Br & Bb)%blocked_false. rewrite place_eq.
  destruct (ninths_lt _ _ Hb) as [Hp81 _].
  apply (consistent_upto_add 81);
    [done|by apply adds_same| |done|lia|
     by replace (Z.of_nat j + 1 - 1) with (Z.of_nat j) by lia..].
  intros d Hd [_ Hpd]. simplify_eq. lia.
Qed.

Lemma completion_place p c_i r_i s_i j s g :
  completion (grid s) g → g !! p = Some (Z.of_nat j + 1) →
  completion (grid (place p c_i r_i s_i j s)) g.
Proof.
  intros [Hsol Hk] Hp. split; [done|]. simpl. intros q v Hq Hv.
  apply list_lookup_insert_Some in Hq as [(-> & <- & _)|[_ Hq]]; [done|].
  by apply Hk.
Qed.

(** A digit that the bitsets of a cell hold is in no completion at that
    cell. *)
Lemma blocked_no_completion p b j s g :
  consistent s → grid s !! p = Some 0 → ninths !! p = Some b → (j < 9)%nat →
  blocked (p mod 9) (p / 9) b (Z.of_nat j) s = Some true →
  completion (grid s) g → g !! p ≠ Some (Z.of_nat j + 1).
Proof.
  intros (Hwf & Hok & (Hc & Hr & Hbx) & Huniq) Hp Hb Hj Hblk
    [(Hlen & Hrange & Hu) Hk] Hgp.
  destruct (ninths_lt _ _ Hb) as [Hp81 Hb9].
  assert (p mod 9 < 9)%nat by (apply Nat.mod_upper_bound; lia).
  assert (p / 9 < 9)%nat by (apply Nat.Div0.div_lt_upper_bound; lia).
  assert (∃ q, (q < 81)%nat ∧ grid s !! q = Some (Z.of_nat j + 1) ∧
               (col_of q = col_of p ∨ row_of q = row_of p ∨
                box_of q = box_of p)) as (q & Hq & Hgq & Hsame).
  { unfold blocked in Hblk. rewrite (box_of_ninths _ _ Hb).
    replace (Z.of_nat j) with (Z.of_nat j + 1 - 1) in Hblk by lia.
    apply or_else_true in Hblk as [Hbit|[_ Hblk]];
      [|apply or_else_true in Hblk as [Hbit|[_ Hbit]]].
    - apply Hc in Hbit as (q & ? & ? & ?); [|done|lia]. exists q. auto.
    - apply Hr in Hbit as (q & ? & ? & ?); [|done|lia]. exists q. auto.
    - apply Hbx in Hbit as (q & ? & ? & ?); [|done|lia]. exists q. auto. }
  assert (q ≠ p) as Hne by (intros ->; simplify_eq; lia).
  assert (g !! q = Some (Z.of_nat j + 1)) as Hgq' by (apply Hk; [done|lia]).
  destruct (Hu q p (Z.of_nat j + 1)) as (? & ? & ?); try done; [lia|].
  by destruct Hsame as [|[|]].
Qed.

Lemma lex_leb_cons_same (x : Z) (l1 l2 : list Z) :
  lex_leb (x :: l1) (x :: l2) = lex_leb l1 l2.
Proof. simpl. by rewrite Z.ltb_irrefl, Z.eqb_refl. Qed.

Lemma lex_leb_cons_lt (x y : Z) (l1 l2 : list Z) :
  x < y → lex_leb (x :: l1) (y :: l2) = true.
Proof. intros Hlt. simpl. by destruct (Z.ltb_spec x y); [|lia]. Qed.

Lemma refuted_no_completion rec p b s j g :
  (∀ s1 res, consistent s1 → rec s1 = Some res → solve_post (p + 1) s1 res) →
  consistent s → grid s !! p = Some 0 → ninths !! p = Some b → (j < 9)%nat →
  refuted rec p (p mod 9) (p / 9) b s j →
  completion (grid s) g → g !! p ≠ Some (Z.of_nat j + 1).
Proof.
  intros Hrec Hs Hp Hb Hj [Hblk|[Hblk Hr]] Hg Hgp.
  - by apply (blocked_no_completion p b j s g).
  - apply Hrec in Hr as [_ Hno]; [|by apply consistent_place].
    apply (Hno g). by apply completion_place.
Qed.

Lemma completion_lookup g0 g p :
  completion g0 g → (p < 81)%nat → ∃ d, g !! p = Some d ∧ 1 ≤ d ≤ 9.
Proof.
  intros [(Hlen & Hrange & _) _] Hp.
  destruct (lookup_lt_is_Some_2 g p) as [d Hd]; [lia|]. eauto.
Qed.

Lemma solve_fuel_correct fuel p s res :
  consistent s → solve_fuel fuel p s = Some res → solve_post p s res.
Proof.
  revert p s res. induction fuel as [|fuel IH]; intros p s res Hs; [done|].
  rewrite solve_fuel_unfold. destruct (Nat.eqb_spec p 81) as [->|Hp81].
  { intros [= <-]. split; [done|]. split; [apply keeps_refl|].
    split; [intros q Hq; lia|]. intros g _. simpl.
    destruct Hs as ((Hlen & _) & _). by rewrite drop_ge by lia. }
  destruct (grid s !! p) as [v|] eqn:Hp; simpl; [|done].
  assert (p < 81)%nat as Hlt.
  { destruct Hs as ((Hlen & _) & _). apply lookup_lt_Some in Hp. lia. }
  destruct (Z.ltb_spec 0 v) as [Hv|Hv].
  { intros Hr. apply IH in Hr; [|done]. unfold solve_post in *.
    destruct res as [[] s']; simpl in *; [|done].
    destruct Hr as (Hs' & Hk & Hfill & Hlex). split_and!; [done..| |].
    - intros q Hq. destruct (decide (q = p)) as [->|]; [|apply Hfill; lia].
      exists v. split; [by apply Hk|done].
    - intros g Hg. rewrite Nat.add_1_r in Hlex.
      rewrite (drop_S (grid s') v p) by by apply Hk.
      rewrite (drop_S g v p) by by apply Hg.
      rewrite lex_leb_cons_same. by apply Hlex. }
  assert (v = 0) as ->.
  { destruct Hs as (_ & Hok & _). apply (Hok p v) in Hp; [lia|done]. }
  destruct (ninths !! p) as [b|] eqn:Hb; simpl; [|done].
  intros Hloop.
  assert (∀ s1 r, consistent s1 → solve_fuel fuel (p + 1) s1 = Some r →
                  solve_post (p + 1) s1 r) as Hrec by (intros; by apply IH).
  apply solve_loop_spec in Hloop; [|intros s1 s2; apply solve_fuel_false
    |by apply consistent_cells_nonneg|done].
  destruct Hloop as [[-> Hall]|(j & s' & -> & Hj & Hbj & Hrj & Hall)].
  - split; [done|]. simpl. intros g Hg.
    destruct (completion_lookup _ _ p Hg Hlt) as (d & Hd & Hrange).
    apply (refuted_no_completion _ p b s (Z.to_nat (d - 1)) g Hrec);
      try done; [lia|apply Hall; lia|].
    rewrite Hd. f_equal. lia.
  - pose proof (consistent_place p b j s Hs Hp Hb ltac:(lia) Hbj) as Hpl.
    destruct (Hrec _ _ Hpl Hrj) as (Hs' & Hk & Hfill & Hlex). simpl in *.
    assert (grid s' !! p = Some (Z.of_nat j + 1)) as Hp'.
    { apply Hk; [|lia]. apply list_lookup_insert_eq.
      by apply lookup_lt_Some in Hp. }
    split_and!; simpl; [done| | |].
    + eapply keeps_trans; [|exact Hk].
      apply keeps_insert. intros v' Hv'. simplify_eq. lia.
    + intros q Hq. destruct (decide (q = p)) as [->|]; [|apply Hfill; lia].
      eexists. split; [done|lia].
    + intros g Hg.
      destruct (completion_lookup _ _ p Hg Hlt) as (d & Hd & Hrange).
      rewrite (drop_S (grid s') _ p Hp'), (drop_S g d p Hd).
      destruct (Z.lt_total (Z.of_nat j + 1) d) as [Hlt'|[<-|Hgt]].
      * by apply lex_leb_cons_lt.
      * rewrite lex_leb_cons_same. rewrite Nat.add_1_r in Hlex.
        apply Hlex. by apply (completion_place p 0%nat 0%nat 0%nat j s g).
      * exfalso.
        apply (refuted_no_completion _ p b s (Z.to_nat (d - 1)) g Hrec);
          try done; [lia|apply Hall; lia|].
        rewrite Hd. f_equal. lia.
Qed.

(** ** The validator *)

Lemma num_of_range ch : invalid_char ch = false → 0 ≤ num_of ch ≤ 9.
Proof.
  unfold invalid_char, num_of, NUMERAL_ZERO, NUMERAL_NINE, DASH.
  destruct (Z.ltb_spec (char_int ch) 48), (Z.ltb_spec 57 (char_int ch)),
    (Z.eqb_spec (char_int ch) 45); simpl; (done || lia).
Qed.

Lemma readInput_loop_unfold n input i s err :
  readInput_loop (S n) input i s err =
  o ← readInput_body input i s;
  match o with
  | ReturnFalse s' err' => Some (false, s', err')
  | Continue s' => readInput_loop n input (S i) s' err
  end.
Proof. reflexivity. Qed.

(** A turn that goes on has read a valid character, has written its value
    into cell [i] and has kept grid and caches consistent. *)
Lemma readInput_body_continue input i s s' :
  consistent_upto i s → (i < 81)%nat →
  readInput_body input i s = Some (Continue s') →
  invalid_char (char_at input i) = false ∧
  grid s' = <[i := num_of (char_at input i)]> (grid s) ∧
  consistent_upto (S i) s'.
Proof.
  intros Hs Hi. unfold readInput_body.
  destruct (invalid_char _) eqn:Hinv; [done|].
  pose proof (num_of_range _ Hinv) as Hnum.
  set (num := num_of (char_at input i)) in *.
  destruct (Z.ltb_spec 0 num) as [Hpos|Hzero].
  - destruct (ninths !! i) as [b|] eqn:Hb; simpl; [|done].
    destruct (bit (columns s) _ _) as [[]|] eqn:Bc; simpl; [done| |done].
    destruct (bit (rows s) _ _) as [[]|] eqn:Br; simpl; [done| |done].
    destruct (bit (subgrid s) _ _) as [[]|] eqn:Bb; simpl; [done| |done].
    intros [= <-]. split; [done|]. split; [done|].
    apply (consistent_upto_add i); [done|apply adds_next| |done|lia|done..].
    intros d _ [Hlt _]. lia.
  - intros [= <-]. split; [done|]. split; [done|].
    replace num with 0 by lia. by apply consistent_upto_skip.
Qed.

(** A turn that leaves the function: the character is invalid and the state
    is untouched, or the cell is written and one of the three bitsets,
    tested in the order column, row, subgrid, holds the digit. *)
Lemma readInput_body_fail input i s s' err' :
  readInput_body input i s = Some (ReturnFalse s' err') →
  let ch := char_at input i in
  let num := num_of ch in
  (invalid_char ch = true ∧ s' = s ∧ err' = character_error ch) ∨
  (invalid_char ch = false ∧ 0 < num ∧ s' = set_grid i num s ∧
   ((bit (columns s) (i mod 9) (num - 1) = Some true ∧
     err' = column_error num (i mod 9)) ∨
    (bit (columns s) (i mod 9) (num - 1) = Some false ∧
     bit (rows s) (i / 9) (num - 1) = Some true ∧
     err' = row_error num (i / 9)) ∨
    (bit (columns s) (i mod 9) (num - 1) = Some false ∧
     bit (rows s) (i / 9) (num - 1) = Some false ∧
     bit (subgrid s) (box_of i) (num - 1) = Some true ∧
     err' = subgrid_error num (i mod 9)))).
Proof.
  unfold readInput_body. simpl.
  destruct (invalid_char _) eqn:Hinv; [intros [= <- <-]; by left|].
  destruct (Z.ltb_spec 0 (num_of (char_at input i))) as [Hpos|Hzero]; [|done].
  destruct (ninths !! i) as [b|] eqn:Hb; simpl; [|done].
  rewrite (box_of_ninths _ _ Hb).
  destruct (bit (columns s) _ _) as [[]|] eqn:Bc; simpl; [|idtac|done].
  { intros [= <- <-]. right. do 3 (split; [done|]). by left. }
  destruct (bit (rows s) _ _) as [[]|] eqn:Br; simpl; [|idtac|done].
  { intros [= <- <-]. right. do 3 (split; [done|]). right. by left. }
  destruct (bit (subgrid s) _ _) as [[]|] eqn:Bb; simpl; [|done|done].
  intros [= <- <-]. right. do 3 (split; [done|]). right. by right.
Qed.

(** The turns that went on, seen from the end of the loop. *)
Lemma readInput_loop_true n input i s err s' err' :
  consistent_upto i s → (i + n ≤ 81)%nat →
  readInput_loop n input i s err = Some (true, s', err') →
  err' = err ∧ consistent_upto (i + n) s' ∧
  (∀ j, (i ≤ j < i + n)%nat →
     invalid_char (char_at input j) = false ∧
     grid s' !! j = Some (num_of (char_at input j))) ∧
  (∀ j, (j < i ∨ i + n ≤ j)%nat → grid s' !! j = grid s !! j).
Proof.
  revert i s. induction n as [|n IH]; intros i s Hs Hn.
  { intros [= <- <-]. rewrite Nat.add_0_r. split_and!; [done..| |done].
    intros j Hj. lia. }
  rewrite readInput_loop_unfold.
  destruct (readInput_body input i s) as [[s1|s1 e1]|] eqn:Hbody;
    simpl; [|done..].
  apply readInput_body_continue in Hbody as (Hinv & Hg1 & Hs1); [|done|lia].
  intros (-> & Hs' & Hcells & Hframe)%IH; [|done|lia].
  replace (S i + n)%nat with (i + S n)%nat in * by lia.
  split_and!; [done..| |].
  - intros j Hj. destruct (decide (j = i)) as [->|]; [|apply Hcells; lia].
    split; [done|]. rewrite Hframe, Hg1 by lia.
    apply list_lookup_insert_eq. destruct Hs as ((Hlen & _) & _). lia.
  - intros j Hj. rewrite Hframe, Hg1 by lia.
    apply list_lookup_insert_ne. lia.
Qed.

(** A loop that leaves with [false]: some turns went on, the next one
    left. *)
Lemma readInput_loop_false n input i s err s' err' :
  readInput_loop n input i s err = Some (false, s', err') →
  ∃ k s_k, (k < n)%nat ∧
    readInput_loop k input i s err = Some (true, s_k, err) ∧
    readInput_body input (i + k) s_k = Some (ReturnFalse s' err').
Proof.
  revert i s. induction n as [|n IH]; intros i s; [done|].
  rewrite readInput_loop_unfold.
  destruct (readInput_body input i s) as [[s1|s1 e1]|] eqn:Hbody;
    simpl; [| |done].
  - intros (k & s_k & Hk & Hloop & Hfail)%IH. exists (S k), s_k.
    split; [lia|]. rewrite readInput_loop_unfold, Hbody. simpl.
    split; [done|]. by replace (i + S k)%nat with (S i + k)%nat by lia.
  - intros [= <- <-]. exists 0%nat, s. split; [lia|]. split; [done|].
    by rewrite Nat.add_0_r.
Qed.

(** Turns that went on are a prefix of any longer run of the loop. *)
Lemma readInput_loop_app n m input i s err s1 :
  readInput_loop n input i s err = Some (true, s1, err) →
  readInput_loop (n + m) input i s err =
  readInput_loop m input (i + n) s1 err.
Proof.
  revert i s. induction n as [|n IH]; intros i s.
  { intros [= <-]. by rewrite Nat.add_0_r. }
  rewrite Nat.add_succ_l, !readInput_loop_unfold.
  destruct (readInput_body input i s) as [[s2|s2 e2]|]; simpl; [|done..].
  intros Hloop. rewrite (IH _ _ Hloop). f_equal. lia.
Qed.

Lemma fresh_consistent (g0 : list Z) :
  length g0 = 81%nat → consistent_upto 0 (fresh g0).
Proof.
  intros Hlen. split; [done|]. split; [intros q v Hq; lia|].
  assert (∀ u, sync_family u 0 g0 (replicate 9 0)) as Hsync.
  { intros u k d Hk Hd. split.
    - intros (b & Hb & Hbit)%bit_Some.
      apply lookup_replicate in Hb as [-> _]. by rewrite Z.bits_0 in Hbit.
    - intros (q & Hq & _). lia. }
  split; [by split_and!|]. intros q1 q2 d Hq. lia.
Qed.

(** ** The search goes through consistent states only *)

Lemma solve_loop_log_unfold rec p c_i r_i s_i n i s :
  solve_loop_log rec p c_i r_i s_i (S n) i s =
  blk ← blocked c_i r_i s_i (Z.of_nat i) s;
  if blk : bool then solve_loop_log rec p c_i r_i s_i n (S i) s
  else
    r ← rec (place p c_i r_i s_i i s);
    if r.1.1 : bool then Some (true, r.1.2, r.2)
    else
      l ← solve_loop_log rec p c_i r_i s_i n (S i)
             (undo p c_i r_i s_i i r.1.2);
      Some (l.1.1, l.1.2, r.2 ++ undo p c_i r_i s_i i r.1.2 :: l.2).
Proof. reflexivity. Qed.

Lemma solve_fuel_log_unfold fuel p s :
  solve_fuel_log (S fuel) p s =
  if (p =? 81)%nat then Some (true, s, [s])
  else
    v ← grid s !! p;
    if 0 <? v then
      r ← solve_fuel_log fuel (p + 1) s; Some (r.1.1, r.1.2, s :: r.2)
    else
      s_i ← ninths !! p;
      r ← solve_loop_log (solve_fuel_log fuel (p + 1)) p
             (p mod 9) (p / 9) s_i 9 0 s;
      Some (r.1.1, r.1.2, s :: r.2 ++ [r.1.2]).
Proof. reflexivity. Qed.

Global Opaque solve_loop_log solve_fuel_log.

(** Forgetting the states gives [solve]. *)
Lemma solve_loop_log_result rec rec' p c_i r_i s_i n i s :
  (∀ s1, fst <$> rec' s1 = rec s1) →
  fst <$> solve_loop_log rec' p c_i r_i s_i n i s =
  solve_loop rec p c_i r_i s_i n i s.
Proof.
  intros Hrec. revert i s. induction n as [|n IH]; intros i s; [done|].
  rewrite solve_loop_log_unfold, solve_loop_unfold.
  destruct (blocked _ _ _ _ s) as [[]|]; simpl; [by apply IH| |done].
  rewrite <- Hrec. destruct (rec' _) as [[[[] s2] l2]|]; simpl; try done.
  rewrite <- IH. by destruct (solve_loop_log _ _ _ _ _ _ _ _) as [[[? ?] ?]|].
Qed.

Lemma solve_fuel_log_result fuel p s :
  fst <$> solve_fuel_log fuel p s = solve_fuel fuel p s.
Proof.
  revert p s. induction fuel as [|fuel IH]; intros p s; [done|].
  rewrite solve_fuel_log_unfold, solve_fuel_unfold.
  destruct (p =? 81)%nat; [done|].
  destruct (grid s !! p) as [v|]; simpl; [|done].
  destruct (0 <? v).
  { rewrite <- IH. by destruct (solve_fuel_log _ _ _) as [[[? ?] ?]|]. }
  destruct (ninths !! p) as [b|]; simpl; [|done].
  rewrite <- (solve_loop_log_result (solve_fuel fuel (p + 1))
                (solve_fuel_log fuel (p + 1))) by done.
  by destruct (solve_loop_log _ _ _ _ _ _ _ _) as [[[? ?] ?]|].
Qed.

Lemma solve_post_consistent p s res :
  consistent s → solve_post p s res → consistent res.2.
Proof.
  intros Hs. unfold solve_post. destruct res as [[] s']; simpl.
  - by intros [? _].
  - by intros [-> _].
Qed.

Lemma solve_loop_log_consistent rec p b n i s res :
  (∀ s1 r, consistent s1 → rec s1 = Some r →
     solve_post (p + 1) s1 r.1 ∧ Forall consistent r.2) →
  consistent s → grid s !! p = Some 0 → ninths !! p = Some b →
  (i + n ≤ 9)%nat →
  solve_loop_log rec p (p mod 9) (p / 9) b n i s = Some res →
  Forall consistent res.2.
Proof.
  intros Hrec Hs Hp Hb. revert i res.
  induction n as [|n IH]; intros i res Hi.
  { by intros [= <-]. }
  rewrite solve_loop_log_unfold.
  destruct (blocked _ _ _ _ s) as [[]|] eqn:Hblk; simpl; [|idtac|done].
  { apply IH. lia. }
  destruct (rec _) as [[[b2 s2] l2]|] eqn:Hr; simpl; [|done].
  apply Hrec in Hr as [Hpost Hlog]; [|apply consistent_place; (done || lia)].
  simpl in *. destruct b2; [by intros [= <-]|].
  destruct Hpost as [Heq _]. simpl in Heq. subst s2.
  rewrite undo_place by done.
  destruct (solve_loop_log _ _ _ _ _ _ _ _) as [l|] eqn:Hloop; simpl; [|done].
  intros [= <-]. simpl. apply Forall_app. split; [done|].
  apply Forall_cons. split; [done|]. apply (IH (S i)); [lia|done].
Qed.

Lemma solve_fuel_log_consistent fuel p s res :
  consistent s → solve_fuel_log fuel p s = Some res →
  Forall consistent res.2.
Proof.
  revert p s res. induction fuel as [|fuel IH]; intros p s res Hs; [done|].
  intros Hlog.
  assert (solve_post p s res.1) as Hpost.
  { apply (solve_fuel_correct (S fuel)); [done|].
    by rewrite <- solve_fuel_log_result, Hlog. }
  revert Hlog Hpost. rewrite solve_fuel_log_unfold.
  destruct (p =? 81)%nat.
  { intros [= <-] _. simpl. by apply Forall_singleton. }
  destruct (grid s !! p) as [v|] eqn:Hp; simpl; [|done].
  destruct (Z.ltb_spec 0 v) as [Hv|Hv].
  { destruct (solve_fuel_log _ _ _) as [r|] eqn:Hr; simpl; [|done].
    intros [= <-] _. simpl. apply Forall_cons. split; [done|].
    by apply (IH _ _ _ Hs Hr). }
  assert (v = 0) as ->.
  { destruct Hs as ((Hlen & _) & Hok & _).
    apply (Hok p v) in Hp as ?; [lia|]. apply lookup_lt_Some in Hp. lia. }
  destruct (ninths !! p) as [b|] eqn:Hb; simpl; [|done].
  destruct (solve_loop_log _ _ _ _ _ _ _ _) as [r|] eqn:Hloop; simpl; [|done].
  intros [= <-] Hpost. simpl in *. apply Forall_cons. split; [done|].
  apply Forall_app. split.
  - apply (solve_loop_log_consistent (solve_fuel_log fuel (p + 1))
             p b 9 0 s r); [|done..].
    intros s1 r1 Hs1 Hr1. split; [|by apply (IH _ _ _ Hs1 Hr1)].
    apply (solve_fuel_correct fuel); [done|].
    by rewrite <- solve_fuel_log_result, Hr1.
  - apply Forall_singleton.
    by apply (solve_post_consistent p s (r.1.1, r.1.2)).
Qed.

(** A grid that is filled from [p] on is left as it is. *)
Lemma solve_fuel_filled n p s :
  (p + n = 81)%nat → filled_from p (grid s) →
  solve_fuel (S n) p s = Some (true, s).
Proof.
  revert p. induction n as [|n IH]; intros p Hp Hfill.
  { rewrite solve_fuel_unfold. by replace p with 81%nat by lia. }
  rewrite solve_fuel_unfold. destruct (Nat.eqb_spec p 81) as [|_]; [lia|].
  destruct (Hfill p) as (v & -> & Hv); [lia|]. simpl.
  destruct (Z.ltb_spec 0 v) as [_|]; [|lia].
  apply IH; [lia|]. intros q Hq. apply Hfill. lia.
Qed.

(** A successful validation leaves a consistent state, whatever the grid
    held before. *)
Lemma readInput_consistent input g0 err s err' :
  length g0 = 81%nat →
  readInput input (fresh g0) err = Some (true, s, err') → consistent s.
Proof.
  intros Hlen. unfold readInput.
  destruct (negb _); [done|]. intros Hloop.
  apply readInput_loop_true in Hloop as (_ & Hs & _);
    [done|by apply fresh_consistent|lia].
Qed.

Lemma solve_post_completion s s' :
  solve_post 0 s (true, s') → completion (grid s) (grid s').
Proof.
  intros (((Hlen & _) & Hok & _ & Huniq) & Hk & Hfill & _). simpl in *.
  split; [|done]. split; [done|]. split; [|done]. intros q v Hq.
  assert (q < 81)%nat as Hlt by (apply lookup_lt_Some in Hq; lia).
  destruct (Hfill q) as (v' & Hq' & Hv'); [lia|]. simplify_eq.
  apply (Hok q v) in Hq; [lia|done].
Qed.

Lemma example_state_consistent : consistent example_state.
Proof.
  apply (readInput_consistent example_input zero_grid "" _ "");
    [done|]. vm_compute. reflexivity.
Qed.

Lemma dead_end_state_consistent : consistent dead_end_state.
Proof.
  apply (readInput_consistent dead_end_input zero_grid "" _ "");
    [done|]. vm_compute. reflexivity.
Qed.

(** ** The claims *)

(** C2. When [solve(p, s)] returns false, the state is exactly the state
    of the call: the grid and the three families of bitsets are unchanged,
    every tentative placement has been undone. The states are those of the
    data model, whose cells are not negative. *)
Theorem solve_false_restores (p : nat) (s s' : sudoku) :
  cells_nonneg s → solve p s = Some (false, s') →
  s' = s ∧ grid s' = grid s ∧ columns s' = columns s ∧
  rows s' = rows s ∧ subgrid s' = subgrid s.
Proof.
  intros Hs Hsolve. apply solve_fuel_false in Hsolve as ->; done.
Qed.

(** On [backtrack_state] the search fails after it has placed 1 in cell 1
    and 2 in cell 2 (third logged state), and 2 and 1 after that: every
    placement is undone and the state is the one of the call. *)
Lemma solve_false_restores_witness :
  cells_nonneg backtrack_state ∧
  solve 0 backtrack_state = Some (false, backtrack_state) ∧
  (∃ log : list sudoku,
     solve_fuel_log 82 0 backtrack_state =
       Some (false, backtrack_state, log) ∧
     log !! 2%nat =
       Some (place 1 1 0 0 1 (place 0 0 0 0 0 backtrack_state))) ∧
  grid (place 1 1 0 0 1 (place 0 0 0 0 0 backtrack_state)) !! 0%nat = Some 1 ∧
  grid (place 1 1 0 0 1 (place 0 0 0 0 0 backtrack_state)) !! 1%nat = Some 2 ∧
  grid backtrack_state !! 0%nat = Some 0 ∧
  grid backtrack_state !! 1%nat = Some 0 ∧
  (backtrack_state = backtrack_state ∧
   grid backtrack_state = grid backtrack_state ∧
   columns backtrack_state = columns backtrack_state ∧
   rows backtrack_state = rows backtrack_state ∧
   subgrid backtrack_state = subgrid backtrack_state).
Proof.
  assert (cells_nonneg backtrack_state) as H1.
  { apply (bool_decide_unpack _). vm_compute. exact I. }
  assert (solve 0 backtrack_state = Some (false, backtrack_state)) as H2.
  { vm_compute. reflexivity. }
  split; [exact H1|]. split; [exact H2|]. split.
  { exists (default [] (snd <$> solve_fuel_log 82 0 backtrack_state)).
    split; vm_compute; reflexivity. }
  do 4 (split; [reflexivity|]).
  exact (solve_false_restores 0 backtrack_state backtrack_state H1 H2).
Defined.

(** C9. [solve] never modifies a cell that was filled at the call: it holds
    the same value at the return, whether [solve] returns true or false.
    The code takes a cell as filled when its value is positive; on the
    states of the data model that is every nonzero cell. *)
Theorem solve_keeps_clues (p : nat) (s : sudoku) (res : bool * sudoku) :
  solve p s = Some res →
  (∀ (q : nat) (v : Z), grid s !! q = Some v → 0 < v →
     grid res.2 !! q = Some v) ∧
  (cells_nonneg s →
   ∀ (q : nat) (v : Z), grid s !! q = Some v → v ≠ 0 →
     grid res.2 !! q = Some v).
Proof.
  intros Hsolve. apply solve_fuel_keeps in Hsolve. split; [exact Hsolve|].
  intros Hs q v Hq Hv. apply Hsolve; [done|].
  unfold cells_nonneg in Hs. rewrite Forall_lookup in Hs.
  specialize (Hs q v Hq). simpl in Hs. lia.
Qed.

Lemma solve_keeps_clues_witness :
  solve 0 example_state = Some (true, example_final) ∧
  (∀ (q : nat) (v : Z), grid example_state !! q = Some v → 0 < v →
     grid example_final !! q = Some v) ∧
  (cells_nonneg example_state →
   ∀ (q : nat) (v : Z), grid example_state !! q = Some v → v ≠ 0 →
     grid example_final !! q = Some v).
Proof.
  assert (solve 0 example_state = Some (true, example_final)) as H.
  { vm_compute. reflexivity. }
  split; [exact H|].
  exact (solve_keeps_clues 0 example_state (true, example_final) H).
Defined.

(** C4. [solve(p, s)] terminates for every position [p] in 0..81 and every
    state: calls nested [81 - p] deep below the first one are enough for it
    to return. On a consistent state that has no valid completion,
    [solve(0, s)] returns false, the state being as it was. *)
Theorem solve_terminates (p : nat) (s : sudoku) :
  (p ≤ 81)%nat → wf_sudoku s →
  ∃ res, solve_fuel (S (81 - p)) p s = Some res ∧
    (p = 0%nat → consistent s → (∀ g, ¬ completion (grid s) g) →
     res = (false, s)).
Proof.
  intros Hp Hwf.
  destruct (solve_fuel_total (81 - p) p s) as (res & Hres & _); [lia|done|].
  exists res. split; [done|]. intros -> Hs Hnone.
  pose proof (solve_fuel_correct _ _ _ _ Hs Hres) as Hpost.
  destruct res as [[] s'].
  - destruct (Hnone (grid s')). by apply solve_post_completion.
  - destruct Hpost as [Heq _]. simpl in Heq. by subst.
Qed.

Lemma solve_terminates_witness :
  (0 ≤ 81)%nat ∧ wf_sudoku dead_end_state ∧
  ∃ res, solve_fuel (S (81 - 0)) 0 dead_end_state = Some res ∧
    (0%nat = 0%nat → consistent dead_end_state →
     (∀ g, ¬ completion (grid dead_end_state) g) →
     res = (false, dead_end_state)).
Proof.
  assert (0 ≤ 81)%nat as H1 by lia.
  assert (wf_sudoku dead_end_state) as H2 by (by vm_compute).
  split; [exact H1|]. split; [exact H2|].
  exact (solve_terminates 0 dead_end_state H1 H2).
Defined.

(** C7. Running the solver twice is idempotent: on a validated (consistent)
    state the first call returns; when it returns true the second call
    returns true and leaves the same state, hence the same grid; when it
    returns false the state is unchanged and the second call returns false
    and leaves it unchanged. *)
Theorem solve_idempotent (s : sudoku) :
  consistent s →
  ∃ (b : bool) (s1 : sudoku),
    solve 0 s = Some (b, s1) ∧ solve 0 s1 = Some (b, s1) ∧
    (b = false → s1 = s).
Proof.
  intros Hs. pose proof Hs as (Hwf & _).
  destruct (solve_fuel_total 81 0 s) as ([b s1] & Hres & _); [lia|done|].
  exists b, s1. split; [done|].
  pose proof (solve_fuel_correct _ _ _ _ Hs Hres) as Hpost.
  destruct b.
  - split; [|done]. destruct Hpost as (_ & _ & Hfill & _).
    by apply (solve_fuel_filled 81 0 s1).
  - destruct Hpost as [Heq _]. simpl in Heq. by subst.
Qed.

Lemma solve_idempotent_witness :
  consistent example_state ∧
  ∃ (b : bool) (s1 : sudoku),
    solve 0 example_state = Some (b, s1) ∧ solve 0 s1 = Some (b, s1) ∧
    (b = false → s1 = example_state).
Proof.
  split; [exact example_state_consistent|].
  exact (solve_idempotent example_state example_state_consistent).
Defined.

(** C8. Whenever the grid of a consistent state has a valid completion,
    [solve(0, s)] returns true and the grid it leaves is the smallest valid
    completion, grids being compared as the sequences of their 81 digits in
    the order of the positions. *)
Theorem solve_finds_least (s : sudoku) (g : list Z) :
  consistent s → completion (grid s) g →
  ∃ s' : sudoku,
    solve 0 s = Some (true, s') ∧ completion (grid s) (grid s') ∧
    ∀ g' : list Z, completion (grid s) g' → lex_leb (grid s') g' = true.
Proof.
  intros Hs Hg. pose proof Hs as (Hwf & _).
  destruct (solve_fuel_total 81 0 s) as ([b s'] & Hres & _); [lia|done|].
  pose proof (solve_fuel_correct _ _ _ _ Hs Hres) as Hpost.
  destruct b; [|by destruct Hpost as [_ Hnone]; destruct (Hnone g)].
  exists s'. split; [done|]. split; [by apply solve_post_completion|].
  destruct Hpost as (_ & _ & _ & Hlex). exact Hlex.
Qed.

Lemma example_solution_completion :
  completion (grid example_state) example_solution.
Proof.
  apply (solve_post_completion example_state example_final).
  apply (solve_fuel_correct 82); [exact example_state_consistent|].
  vm_compute. reflexivity.
Qed.

Lemma solve_finds_least_witness :
  consistent example_state ∧
  completion (grid example_state) example_solution ∧
  ∃ s' : sudoku,
    solve 0 example_state = Some (true, s') ∧
    completion (grid example_state) (grid s') ∧
    ∀ g' : list Z,
      completion (grid example_state) g' → lex_leb (grid s') g' = true.
Proof.
  split; [exact example_state_consistent|].
  split; [exact example_solution_completion|].
  exact (solve_finds_least example_state example_solution
           example_state_consistent example_solution_completion).
Defined.

(** C3. On the example of the README, whatever the grid held before,
    [readInput] succeeds, [solve(0, s)] returns true and the grid is the
    published solution. *)
Theorem example_solved (g0 : list Z) (err : string) :
  length g0 = 81%nat →
  ∃ s1 s2 : sudoku,
    readInput example_input (fresh g0) err = Some (true, s1, err) ∧
    solve 0 s1 = Some (true, s2) ∧
    grid s2 = example_solution.
Proof.
  intros Hlen. exists example_state, example_final.
  split; [|split; vm_compute; reflexivity].
  do 81 (destruct g0 as [|? g0]; [done|]). destruct g0; [|done].
  vm_compute. reflexivity.
Qed.

Lemma example_solved_witness :
  length zero_grid = 81%nat ∧
  ∃ s1 s2 : sudoku,
    readInput example_input (fresh zero_grid) "" = Some (true, s1, ""%string) ∧
    solve 0 s1 = Some (true, s2) ∧
    grid s2 = example_solution.
Proof.
  assert (length zero_grid = 81%nat) as H by reflexivity.
  split; [exact H|]. exact (example_solved zero_grid "" H).
Defined.

Lemma readInput_at input s err i s_i :
  strlen input = 81%nat → (i < 81)%nat →
  readInput_loop i input 0 s err = Some (true, s_i, err) →
  readInput input s err =
  o ← readInput_body input i s_i;
  match o with
  | ReturnFalse s' err' => Some (false, s', err')
  | Continue s' => readInput_loop (80 - i) input (S i) s' err
  end.
Proof.
  intros Hlen Hi Hloop. unfold readInput.
  destruct (Nat.eqb_spec (strlen input) 81) as [_|]; [|done].
  cbn [negb]. replace 81%nat with (i + S (80 - i))%nat by lia.
  rewrite (readInput_loop_app _ _ _ _ _ _ _ Hloop), readInput_loop_unfold.
  by rewrite Nat.add_0_l.
Qed.

(** In [triple_input] the third 5 is at once in a column, in a row and in
    a subgrid that hold a 5: the column is reported. *)
Example triple_input_column :
  readInput triple_input (fresh zero_grid) "" =
  Some (false, set_grid 13 5 triple_state,
        "The number 5 appears more than once in column 5"%string) ∧
  bit (rows triple_state) 1 4 = Some true ∧
  bit (subgrid triple_state) 1 4 = Some true.
Proof. vm_compute. done. Qed.

(** C6. When the digit of cell [i] is neither in the bitset of its column
    nor in that of its row but is in that of its subgrid, validation fails
    and the message names the subgrid by the column index of the cell plus
    one, [c_i+1], not by the index [s_i] of the subgrid. *)
Theorem readInput_subgrid_error (input : string) (s : sudoku) (err : string)
    (i : nat) (s_i : sudoku) (b : nat) :
  strlen input = 81%nat → (i < 81)%nat →
  readInput_loop i input 0 s err = Some (true, s_i, err) →
  invalid_char (char_at input i) = false →
  0 < num_of (char_at input i) →
  ninths !! i = Some b →
  bit (columns s_i) (i mod 9) (num_of (char_at input i) - 1) = Some false →
  bit (rows s_i) (i / 9) (num_of (char_at input i) - 1) = Some false →
  bit (subgrid s_i) b (num_of (char_at input i) - 1) = Some true →
  readInput input s err =
  Some (false, set_grid i (num_of (char_at input i)) s_i,
        "The number " +:+ to_string (num_of (char_at input i))
        +:+ " appears more than once in subgrid "
        +:+ to_string (Z.of_nat (i mod 9) + 1)).
Proof.
  intros Hlen Hi Hloop Hinv Hpos Hb Bc Br Bb.
  rewrite (readInput_at _ _ _ _ _ Hlen Hi Hloop).
  unfold readInput_body. rewrite Hinv.
  destruct (Z.ltb_spec 0 (num_of (char_at input i))) as [_|]; [|lia].
  rewrite Hb. simpl. by rewrite Bc, Br, Bb.
Qed.

(** The second 5 of [subgrid_duplicate_input] is in column 2 of subgrid 1
    (index 0): the message says subgrid 2. *)
Lemma readInput_subgrid_error_witness :
  ninths !! 10%nat = Some 0%nat ∧
  readInput subgrid_duplicate_input (fresh zero_grid) "" =
  Some (false, set_grid 10 5 subgrid_duplicate_state,
        "The number 5 appears more than once in subgrid 2"%string).
Proof.
  assert (strlen subgrid_duplicate_input = 81%nat) as H1
    by reflexivity.
  assert (10 < 81)%nat as H2 by lia.
  assert (readInput_loop 10 subgrid_duplicate_input 0 (fresh zero_grid) "" =
          Some (true, subgrid_duplicate_state, ""%string)) as H3
    by (vm_compute; reflexivity).
  assert (invalid_char (char_at subgrid_duplicate_input 10) = false) as H4
    by reflexivity.
  assert (0 < num_of (char_at subgrid_duplicate_input 10)) as H5
    by reflexivity.
  assert (ninths !! 10%nat = Some 0%nat) as H6 by reflexivity.
  split; [exact H6|].
  exact (readInput_subgrid_error subgrid_duplicate_input (fresh zero_grid) ""
           10 subgrid_duplicate_state 0 H1 H2 H3 H4 H5 H6
           eq_refl eq_refl eq_refl).
Defined.

Lemma sync_upto_set_grid n i v s :
  (n ≤ i)%nat → sync_upto n s → sync_upto n (set_grid i v s).
Proof.
  intros Hi (Hc & Hr & Hb).
  assert (∀ (q : nat) (d : Z), 1 ≤ d ≤ 9 →
    ((q < n)%nat ∧ grid s !! q = Some d) ↔
    ((q < n)%nat ∧ <[i := v]> (grid s) !! q = Some d)) as Hext.
  { intros q d _. split; intros [Hq Hg]; (split; [done|]).
    - rewrite list_lookup_insert_ne by lia. done.
    - rewrite list_lookup_insert_ne in Hg by lia. done. }
  split_and!; simpl; by eapply sync_family_ext.
Qed.

(** C10. [readInput] is not atomic: when it returns false on an input of
    81 characters, at the first offending position [i], the cells before
    [i] hold their parsed values, the bitsets reflect exactly the filled
    cells among the positions before [i], and cell [i] holds what it held
    before the call (for an invalid character) or the offending digit (for
    a duplicate). The bitsets are empty at the call, as in [main]. *)
Theorem readInput_not_atomic (input : string) (g0 : list Z)
    (err : string) (s' : sudoku) (err' : string) :
  strlen input = 81%nat → length g0 = 81%nat →
  readInput input (fresh g0) err = Some (false, s', err') →
  ∃ i : nat, (i < 81)%nat ∧
    (∀ j : nat, (j < i)%nat →
       invalid_char (char_at input j) = false ∧
       grid s' !! j = Some (num_of (char_at input j))) ∧
    sync_upto i s' ∧
    ((invalid_char (char_at input i) = true ∧
      err' = character_error (char_at input i) ∧
      grid s' !! i = g0 !! i) ∨
     (invalid_char (char_at input i) = false ∧
      0 < num_of (char_at input i) ∧
      grid s' !! i = Some (num_of (char_at input i)) ∧
      (err' = column_error (num_of (char_at input i)) (i mod 9) ∨
       err' = row_error (num_of (char_at input i)) (i / 9) ∨
       err' = subgrid_error (num_of (char_at input i)) (i mod 9)))).
Proof.
  intros Hlen Hg0. unfold readInput.
  destruct (Nat.eqb_spec (strlen input) 81) as [_|]; [|done].
  cbn [negb].
  intros (k & s_k & Hk & Hloop & Hbody)%readInput_loop_false.
  apply readInput_loop_true in Hloop as (_ & Hsk & Hcells & Hframe);
    [|by apply fresh_consistent|lia].
  rewrite Nat.add_0_l in *. exists k. split; [lia|].
  destruct Hsk as (Hwf & _ & Hsync & _).
  apply readInput_body_fail in Hbody
    as [(Hinv & -> & ->)|(Hinv & Hpos & -> & Herr)].
  - split; [intros j Hj; apply Hcells; lia|]. split; [done|]. left.
    split; [done|]. split; [done|]. apply Hframe. lia.
  - split; [|split; [by apply sync_upto_set_grid|]].
    + intros j Hj. simpl. rewrite list_lookup_insert_ne by lia.
      apply Hcells. lia.
    + right. split; [done|]. split; [done|]. split.
      * simpl. apply list_lookup_insert_eq. destruct Hwf as (-> & _). lia.
      * destruct Herr as [[_ ->]|[(_ & _ & ->)|(_ & _ & _ & ->)]]; auto.
Qed.

Lemma readInput_not_atomic_witness :
  strlen row_duplicate_input = 81%nat ∧ length zero_grid = 81%nat ∧
  readInput row_duplicate_input (fresh zero_grid) "" =
    Some (false, row_duplicate_state,
          "The number 5 appears more than once on row 1"%string) ∧
  ∃ i : nat, (i < 81)%nat ∧
    (∀ j : nat, (j < i)%nat →
       invalid_char (char_at row_duplicate_input j) = false ∧
       grid row_duplicate_state !! j =
       Some (num_of (char_at row_duplicate_input j))) ∧
    sync_upto i row_duplicate_state ∧
    ((invalid_char (char_at row_duplicate_input i) = true ∧
      "The number 5 appears more than once on row 1"%string =
        character_error (char_at row_duplicate_input i) ∧
      grid row_duplicate_state !! i = zero_grid !! i) ∨
     (invalid_char (char_at row_duplicate_input i) = false ∧
      0 < num_of (char_at row_duplicate_input i) ∧
      grid row_duplicate_state !! i =
        Some (num_of (char_at row_duplicate_input i)) ∧
      ("The number 5 appears more than once on row 1"%string =
         column_error (num_of (char_at row_duplicate_input i)) (i mod 9) ∨
       "The number 5 appears more than once on row 1"%string =
         row_error (num_of (char_at row_duplicate_input i)) (i / 9) ∨
       "The number 5 appears more than once on row 1"%string =
         subgrid_error (num_of (char_at row_duplicate_input i)) (i mod 9)))).
Proof.
  assert (strlen row_duplicate_input = 81%nat) as H1 by reflexivity.
  assert (length zero_grid = 81%nat) as H2 by reflexivity.
  assert (readInput row_duplicate_input (fresh zero_grid) "" =
          Some (false, row_duplicate_state,
                "The number 5 appears more than once on row 1"%string)) as H3
    by (vm_compute; reflexivity).
  exact (conj H1 (conj H2 (conj H3
    (readInput_not_atomic row_duplicate_input zero_grid ""
       row_duplicate_state _ H1 H2 H3)))).
Defined.

(** The state in which [readInput] returns false on a duplicate is not in
    sync: the second 5 of [row_duplicate_input] is in the grid, in no
    bitset of column 2, and twice in row 1. *)
Lemma readInput_failure_not_in_sync :
  readInput row_duplicate_input (fresh zero_grid) "" =
    Some (false, row_duplicate_state,
          "The number 5 appears more than once on row 1"%string) ∧
  ¬ sync_upto 81 row_duplicate_state ∧
  ¬ unique_upto 81 (grid row_duplicate_state).
Proof.
  split; [vm_compute; reflexivity|]. split.
  - intros [Hc _].
    assert (bit (columns row_duplicate_state) 1 (5 - 1) = Some true) as Hbit.
    { apply Hc; [lia|lia|]. exists 1%nat. split; [lia|]. done. }
    vm_compute in Hbit. discriminate.
  - intros Hu.
    destruct (Hu 0%nat 1%nat 5) as (_ & Hrow & _);
      [lia|lia|done|lia|done|done|].
    by apply Hrow.
Qed.

(** C1, as the code has it. With the bitsets empty at the call, after
    every turn of the loop of [readInput] that goes on, the three families
    of bitsets are in exact sync with the cells read so far, and no two of
    these cells that share a row, a column or a subgrid hold the same
    digit; when [readInput] returns true this holds of the whole grid.
    [solve], called on a state that is in sync and without duplicate, goes
    only through such states: at the entry of every call, after every
    undoing and at every return. *)
Theorem caches_in_sync (input : string) (g0 : list Z) (err : string)
    (p : nat) (s : sudoku) :
  length g0 = 81%nat → (p ≤ 81)%nat → consistent s →
  (∀ (n : nat) (s_n : sudoku) (err_n : string), (n ≤ 81)%nat →
     readInput_loop n input 0 (fresh g0) err = Some (true, s_n, err_n) →
     wf_sudoku s_n ∧ cell_ok n (grid s_n) ∧ sync_upto n s_n ∧
     unique_upto n (grid s_n)) ∧
  (∀ (s1 : sudoku) (err1 : string),
     readInput input (fresh g0) err = Some (true, s1, err1) →
     sync_upto 81 s1 ∧ unique_upto 81 (grid s1)) ∧
  (∃ res : bool * sudoku * list sudoku,
     solve_fuel_log (S (81 - p)) p s = Some res ∧
     solve p s = Some res.1 ∧
     Forall (λ s', sync_upto 81 s' ∧ unique_upto 81 (grid s')) res.2).
Proof.
  intros Hg0 Hp Hs. split_and!.
  - intros n s_n err_n Hn Hloop.
    apply readInput_loop_true in Hloop as (_ & Hsn & _);
      [done|by apply fresh_consistent|lia].
  - intros s1 err1 Hread.
    apply readInput_consistent in Hread as (_ & _ & ? & ?); done.
  - pose proof Hs as (Hwf & _).
    destruct (solve_fuel_total (81 - p) p s) as (r & Hr & _); [lia|done|].
    pose proof (solve_fuel_log_result (S (81 - p)) p s) as Hlink.
    unfold solve. rewrite Hr in Hlink.
    destruct (solve_fuel_log _ _ _) as [res|] eqn:Hlog; [|done].
    simpl in Hlink. exists res. split; [done|]. split; [congruence|].
    apply (solve_fuel_log_consistent _ _ _ _ Hs) in Hlog.
    eapply Forall_impl; [exact Hlog|].
    by intros s' (_ & _ & ? & ?).
Qed.

Lemma caches_in_sync_witness :
  length zero_grid = 81%nat ∧ (0 ≤ 81)%nat ∧ consistent example_state ∧
  (∀ (n : nat) (s_n : sudoku) (err_n : string), (n ≤ 81)%nat →
     readInput_loop n example_input 0 (fresh zero_grid) "" =
       Some (true, s_n, err_n) →
     wf_sudoku s_n ∧ cell_ok n (grid s_n) ∧ sync_upto n s_n ∧
     unique_upto n (grid s_n)) ∧
  (∀ (s1 : sudoku) (err1 : string),
     readInput example_input (fresh zero_grid) "" = Some (true, s1, err1) →
     sync_upto 81 s1 ∧ unique_upto 81 (grid s1)) ∧
  (∃ res : bool * sudoku * list sudoku,
     solve_fuel_log (S (81 - 0)) 0 example_state = Some res ∧
     solve 0 example_state = Some res.1 ∧
     Forall (λ s', sync_upto 81 s' ∧ unique_upto 81 (grid s')) res.2).
Proof.
  assert (length zero_grid = 81%nat) as H1 by reflexivity.
  assert (0 ≤ 81)%nat as H2 by lia.
  exact (conj H1 (conj H2 (conj example_state_consistent
    (caches_in_sync example_input zero_grid "" 0 example_state
       H1 H2 example_state_consistent)))).
Defined.

(** ** More on the validator *)

Lemma parse_grid_lookup input i :
  (i < 81)%nat → parse_grid input !! i = Some (num_of (char_at input i)).
Proof.
  intros Hi. unfold parse_grid.
  by rewrite list_lookup_fmap, lookup_seq_lt.
Qed.

Lemma parse_grid_length input : length (parse_grid input) = 81%nat.
Proof. unfold parse_grid. by rewrite length_fmap, length_seq. Qed.

(** A grid of 81 cells that holds the values of the characters is the
    grid the input denotes. *)
Lemma parse_grid_eq input (g : list Z) :
  length g = 81%nat →
  (∀ j, (j < 81)%nat → g !! j = Some (num_of (char_at input j))) →
  g = parse_grid input.
Proof.
  intros Hlen Hg. apply list_eq. intros j.
  destruct (decide (j < 81)%nat) as [Hj|Hj].
  - by rewrite Hg, parse_grid_lookup.
  - rewrite !lookup_ge_None_2; [done|rewrite parse_grid_length; lia|lia].
Qed.

(** A turn goes on when the character is valid and its digit is in no
    earlier cell of the column, the row and the subgrid. *)
Lemma readInput_body_accepts input i s :
  consistent_upto i s → (i < 81)%nat →
  invalid_char (char_at input i) = false →
  (∀ q, (q < i)%nat → 0 < num_of (char_at input i) →
     grid s !! q = Some (num_of (char_at input i)) →
     col_of q ≠ col_of i ∧ row_of q ≠ row_of i ∧ box_of q ≠ box_of i) →
  ∃ s', readInput_body input i s = Some (Continue s').
Proof.
  intros (Hwf & Hok & (Hc & Hr & Hb) & _) Hi Hinv Hfree.
  pose proof (num_of_range _ Hinv) as Hnum.
  pose proof Hwf as (Hg & Hcs & Hrs & Hbs).
  unfold readInput_body. rewrite Hinv.
  set (num := num_of (char_at input i)) in *.
  destruct (Z.ltb_spec 0 num) as [Hpos|_]; [|by eexists].
  destruct (lookup_lt_is_Some_2 ninths i) as [b Hnin]; [simpl; lia|].
  rewrite Hnin. simpl. destruct (ninths_lt _ _ Hnin) as [_ Hb9].
  assert (i mod 9 < 9)%nat by (apply Nat.mod_upper_bound; lia).
  assert (i / 9 < 9)%nat by (apply Nat.Div0.div_lt_upper_bound; lia).
  destruct (bit_is_Some (columns s) (i mod 9) (num - 1)) as [[] Bc]; [lia| |].
  { apply Hc in Bc as (q & Hq & Hu & Hgq); [|done|lia].
    by destruct (Hfree q Hq Hpos Hgq) as (? & _). }
  destruct (bit_is_Some (rows s) (i / 9) (num - 1)) as [[] Br]; [lia| |].
  { apply Hr in Br as (q & Hq & Hu & Hgq); [|done|lia].
    by destruct (Hfree q Hq Hpos Hgq) as (_ & ? & _). }
  destruct (bit_is_Some (subgrid s) b (num - 1)) as [[] Bb]; [lia| |].
  { apply Hb in Bb as (q & Hq & Hu & Hgq); [|done|lia].
    destruct (Hfree q Hq Hpos Hgq) as (_ & _ & Hbox).
    by rewrite (box_of_ninths _ _ Hnin) in Hbox. }
  rewrite Bc, Br, Bb. simpl. by eexists.
Qed.

Lemma readInput_loop_accepts n input i s err :
  consistent_upto i s → (i + n ≤ 81)%nat →
  (∀ j, (j < 81)%nat → invalid_char (char_at input j) = false) →
  unique_upto 81 (parse_grid input) →
  (∀ q, (q < i)%nat → grid s !! q = Some (num_of (char_at input q))) →
  ∃ s', readInput_loop n input i s err = Some (true, s', err).
Proof.
  intros Hs Hn Hvalid Huniq. revert i s Hs Hn.
  induction n as [|n IH]; intros i s Hs Hn Hread; [by eexists|].
  rewrite readInput_loop_unfold.
  destruct (readInput_body_accepts input i s) as [s1 Hbody];
    [done|lia|apply Hvalid; lia| |].
  { intros q Hq Hpos Hgq.
    apply (Huniq q i (num_of (char_at input i))); try done; try lia.
    - rewrite parse_grid_lookup by lia. by rewrite <- Hread, Hgq.
    - apply parse_grid_lookup. lia. }
  rewrite Hbody. simpl.
  apply readInput_body_continue in Hbody as (_ & Hg1 & Hs1); [|done|lia].
  apply IH; [done|lia|]. intros q Hq. rewrite Hg1.
  destruct (decide (q = i)) as [->|Hne].
  - apply list_lookup_insert_eq. destruct Hs as ((-> & _) & _). lia.
  - rewrite list_lookup_insert_ne by done. apply Hread. lia.
Qed.

Lemma readInput_body_total input i s :
  wf_sudoku s → (i < 81)%nat →
  (∃ s', readInput_body input i s = Some (Continue s') ∧ wf_sudoku s') ∨
  (∃ s' e, readInput_body input i s = Some (ReturnFalse s' e) ∧
           wf_sudoku s').
Proof.
  intros Hwf Hi. pose proof Hwf as (Hg & Hcs & Hrs & Hbs).
  unfold readInput_body.
  destruct (invalid_char _); [right; by eexists _, _|].
  set (num := num_of (char_at input i)).
  pose proof (wf_set_grid i num s Hwf) as Hwf1.
  destruct (0 <? num); [|left; by eexists].
  destruct (lookup_lt_is_Some_2 ninths i) as [b Hnin]; [simpl; lia|].
  rewrite Hnin. simpl. destruct (ninths_lt _ _ Hnin) as [_ Hb9].
  assert (i mod 9 < 9)%nat by (apply Nat.mod_upper_bound; lia).
  assert (i / 9 < 9)%nat by (apply Nat.Div0.div_lt_upper_bound; lia).
  destruct (bit_is_Some (columns s) (i mod 9) (num - 1)) as [x1 ->]; [lia|].
  simpl. destruct x1; [right; by eexists _, _|].
  destruct (bit_is_Some (rows s) (i / 9) (num - 1)) as [x2 ->]; [lia|].
  simpl. destruct x2; [right; by eexists _, _|].
  destruct (bit_is_Some (subgrid s) b (num - 1)) as [x3 ->]; [lia|].
  simpl. destruct x3; [right; by eexists _, _|].
  left. eexists. split; [done|]. by apply wf_set_bits.
Qed.

Lemma readInput_loop_total n input i s err :
  wf_sudoku s → (i + n ≤ 81)%nat →
  ∃ r, readInput_loop n input i s err = Some r ∧ wf_sudoku r.1.2.
Proof.
  revert i s. induction n as [|n IH]; intros i s Hwf Hn; [by eexists|].
  rewrite readInput_loop_unfold.
  destruct (readInput_body_total input i s Hwf)
    as [(s' & -> & Hwf')|(s' & e & -> & Hwf')]; [lia| |]; simpl.
  - apply IH; [done|lia].
  - by eexists.
Qed.

Lemma readInput_total (input : string) (s : sudoku) (err : string) :
  wf_sudoku s →
  ∃ r, readInput input s err = Some r ∧ wf_sudoku r.1.2.
Proof.
  intros Hwf. unfold readInput. destruct (negb _); [by eexists|].
  by apply readInput_loop_total.
Qed.

Lemma readInput_body_checked_eq input i s :
  wf_sudoku s → (i < 81)%nat → strlen input = 81%nat →
  readInput_body_checked input i s = readInput_body input i s.
Proof.
  intros (Hg & Hcs & Hrs & Hbs) Hi Hlen.
  unfold readInput_body_checked, readInput_body, input_at, write_grid.
  rewrite Hlen, Hg.
  destruct (Nat.leb_spec i 81) as [_|]; [|lia].
  destruct (Nat.ltb_spec i 81) as [_|]; [|lia].
  cbn [mbind option_bind].
  destruct (invalid_char _) eqn:Hinv; [done|].
  pose proof (num_of_range _ Hinv) as Hnum.
  set (num := num_of (char_at input i)) in *.
  destruct (Z.ltb_spec 0 num) as [Hpos|_]; [|done].
  destruct (ninths !! i) as [b|] eqn:Hnin; [|done].
  cbn [mbind option_bind]. destruct (ninths_lt _ _ Hnin) as [_ Hb9].
  assert (i mod 9 < 9)%nat by (apply Nat.mod_upper_bound; lia).
  assert (i / 9 < 9)%nat by (apply Nat.Div0.div_lt_upper_bound; lia).
  unfold bit_checked, set_bits_checked. cbn [columns rows subgrid set_grid].
  rewrite Hcs, Hrs, Hbs.
  destruct (Z.leb_spec 0 (num - 1)) as [_|]; [|lia].
  destruct (Z.ltb_spec (num - 1) 9) as [_|]; [|lia].
  destruct (Nat.ltb_spec (i mod 9) 9) as [_|]; [|lia].
  destruct (Nat.ltb_spec (i / 9) 9) as [_|]; [|lia].
  destruct (Nat.ltb_spec b 9) as [_|]; [|lia].
  done.
Qed.

Lemma readInput_loop_checked_eq n input i s err :
  wf_sudoku s → (i + n ≤ 81)%nat → strlen input = 81%nat →
  readInput_loop_checked n input i s err = readInput_loop n input i s err.
Proof.
  revert i s. induction n as [|n IH]; intros i s Hwf Hn Hlen; [done|].
  rewrite readInput_loop_unfold.
  change (readInput_loop_checked (S n) input i s err) with
    (o ← readInput_body_checked input i s;
     match o with
     | ReturnFalse s' err' => Some (false, s', err')
     | Continue s' => readInput_loop_checked n input (S i) s' err
     end).
  rewrite readInput_body_checked_eq by (done || lia).
  destruct (readInput_body_total input i s Hwf)
    as [(s' & -> & Hwf')|(s' & e & -> & Hwf')]; [lia| |]; [|done].
  cbn [mbind option_bind]. apply IH; (done || lia).
Qed.

(** X6. [readInput] makes no access outside of an array: with every access
    of the source checked against its bounds (the characters of the input,
    the cells of the grid, the bitsets of the three families and their
    bits, the table [ninths]), it returns on every state whose arrays have
    the declared sizes and on every input, with the result of [readInput],
    and the arrays keep their sizes. *)
Theorem readInput_in_bounds (input : string) (s : sudoku) (err : string) :
  wf_sudoku s →
  ∃ r, readInput_checked input s err = Some r ∧
       readInput input s err = Some r ∧ wf_sudoku r.1.2.
Proof.
  intros Hwf. destruct (readInput_total input s err Hwf) as (r & Hr & Hwf').
  exists r. split; [|done]. rewrite <- Hr. unfold readInput_checked, readInput.
  destruct (Nat.eqb_spec (strlen input) 81) as [Hlen|]; [|done].
  cbn [negb]. by apply readInput_loop_checked_eq.
Qed.

Lemma readInput_in_bounds_witness :
  wf_sudoku (fresh zero_grid) ∧
  ∃ r, readInput_checked example_input (fresh zero_grid) "" = Some r ∧
       readInput example_input (fresh zero_grid) "" = Some r ∧
       wf_sudoku r.1.2.
Proof.
  assert (wf_sudoku (fresh zero_grid)) as H by (by vm_compute).
  exact (conj H (readInput_in_bounds example_input (fresh zero_grid) "" H)).
Defined.

(** X1. [readInput], called as in [main], accepts exactly the well-formed
    puzzles: the inputs of 81 characters, each a digit or a dash, in which
    no digit occurs twice in a row, a column or a subgrid. When it accepts,
    the grid holds the value of every character (0 for ['-'] and ['0'])
    and the error string is untouched. *)
Theorem readInput_accepts_iff (input : string) (g0 : list Z) (err : string) :
  length g0 = 81%nat →
  ((∃ s, readInput input (fresh g0) err = Some (true, s, err)) ↔
   accepted input) ∧
  (∀ s err', readInput input (fresh g0) err = Some (true, s, err') →
     grid s = parse_grid input ∧ err' = err).
Proof.
  intros Hg0.
  assert (∀ s err', readInput input (fresh g0) err = Some (true, s, err') →
    strlen input = 81%nat ∧ err' = err ∧ consistent s ∧
    (∀ j, (j < 81)%nat → invalid_char (char_at input j) = false) ∧
    grid s = parse_grid input) as Hsucc.
  { intros s err'. unfold readInput.
    destruct (Nat.eqb_spec (strlen input) 81) as [Hlen|]; [|done].
    cbn [negb]. intros Hloop.
    apply readInput_loop_true in Hloop as (-> & Hs & Hcells & _);
      [|by apply fresh_consistent|lia].
    rewrite Nat.add_0_l in *. split_and!; [done..| |].
    - intros j Hj. apply Hcells. lia.
    - apply parse_grid_eq; [by destruct Hs as ((? & _) & _)|].
      intros j Hj. apply Hcells. lia. }
  split; [split|].
  - intros [s Hread].
    apply Hsucc in Hread as (Hlen & _ & Hs & Hvalid & Hgrid).
    split; [done|]. split; [done|]. rewrite <- Hgrid.
    by destruct Hs as (_ & _ & _ & ?).
  - intros (Hlen & Hvalid & Huniq). unfold readInput. rewrite Hlen.
    change (negb (81 =? 81)%nat) with false. cbn iota.
    apply readInput_loop_accepts;
      [by apply fresh_consistent|lia|done|done|intros q Hq; lia].
  - intros s err' Hread. by apply Hsucc in Hread as (_ & -> & _ & _ & ->).
Qed.

Lemma readInput_accepts_iff_witness :
  length zero_grid = 81%nat ∧
  ((∃ s, readInput example_input (fresh zero_grid) "" =
         Some (true, s, ""%string)) ↔ accepted example_input) ∧
  (∀ s err', readInput example_input (fresh zero_grid) "" =
             Some (true, s, err') →
     grid s = parse_grid example_input ∧ err' = ""%string).
Proof.
  assert (length zero_grid = 81%nat) as H by reflexivity.
  exact (conj H (readInput_accepts_iff example_input zero_grid "" H)).
Defined.

(** X2. [readInput] reports the length error exactly when the input is not
    81 characters long, whatever the characters are, the empty input
    included; the state is then untouched. *)
Theorem readInput_wrong_length (input : string) (s s' : sudoku)
    (err : string) :
  (strlen input ≠ 81%nat →
   readInput input s err =
   Some (false, s, "The expected input length is 81 characters"%string)) ∧
  (readInput input s err =
   Some (false, s', "The expected input length is 81 characters"%string) →
   strlen input ≠ 81%nat ∧ s' = s).
Proof.
  unfold readInput. split.
  - intros Hlen. by destruct (Nat.eqb_spec (strlen input) 81).
  - destruct (Nat.eqb_spec (strlen input) 81) as [Hlen|Hlen]; cbn [negb].
    + intros (k & s_k & _ & _ & Hbody)%readInput_loop_false.
      apply readInput_body_fail in Hbody
        as [(_ & _ & Herr)|(_ & _ & _ & Herr)]; exfalso.
      * unfold character_error in Herr. simpl in Herr. discriminate.
      * unfold column_error, row_error, subgrid_error in Herr.
        simpl in Herr.
        destruct Herr as [[_ Herr]|[(_ & _ & Herr)|(_ & _ & _ & Herr)]];
          discriminate.
    + by intros [= <-].
Qed.

Lemma strlen_dashes_for_zeros input :
  strlen (dashes_for_zeros input) = strlen input.
Proof.
  induction input as [|c rest IH]; [done|]. simpl. rewrite IH.
  unfold dash_for_zero. by destruct (Ascii.eqb_spec c "0") as [->|].
Qed.

Lemma char_at_dashes_for_zeros input i :
  char_at (dashes_for_zeros input) i = dash_for_zero (char_at input i).
Proof.
  unfold char_at. revert i. induction input as [|c rest IH]; intros i.
  { by destruct i. }
  destruct i as [|i]; [done|]. apply IH.
Qed.

Lemma readInput_body_dashes_for_zeros input i s :
  readInput_body (dashes_for_zeros input) i s = readInput_body input i s.
Proof.
  unfold readInput_body. rewrite char_at_dashes_for_zeros.
  unfold dash_for_zero.
  by destruct (Ascii.eqb_spec (char_at input i) "0") as [->|].
Qed.

Lemma readInput_dashes_for_zeros input s err :
  readInput (dashes_for_zeros input) s err = readInput input s err.
Proof.
  unfold readInput. rewrite strlen_dashes_for_zeros.
  destruct (negb _); [done|]. generalize 0%nat at 2 4. generalize 81%nat.
  intros n. revert s. induction n as [|n IH]; intros s i; [done|].
  rewrite !readInput_loop_unfold, readInput_body_dashes_for_zeros.
  destruct (readInput_body input i s) as [[s1|s1 e1]|]; simpl; [|done..].
  apply IH.
Qed.

(** X3. ['0'] and ['-'] are interchangeable: two inputs that differ only by
    zeros written for dashes, or dashes for zeros, give the same result,
    the same state and the same message. *)
Theorem readInput_zero_is_dash (a b : string) (s : sudoku) (err : string) :
  dashes_for_zeros a = dashes_for_zeros b →
  readInput a s err = readInput b s err.
Proof.
  intros Hab.
  by rewrite <- (readInput_dashes_for_zeros a), Hab,
    readInput_dashes_for_zeros.
Qed.

Lemma readInput_zero_is_dash_witness :
  dashes_for_zeros
    "530070000600195000098000060800060003400803001700020006060000280000419005000080079" =
  dashes_for_zeros example_input ∧
  readInput
    "530070000600195000098000060800060003400803001700020006060000280000419005000080079"
    (fresh zero_grid) "" =
  readInput example_input (fresh zero_grid) "".
Proof.
  assert (dashes_for_zeros
    "530070000600195000098000060800060003400803001700020006060000280000419005000080079" =
    dashes_for_zeros example_input) as H by reflexivity.
  exact (conj H (readInput_zero_is_dash _ _ (fresh zero_grid) "" H)).
Defined.

(** The turns of [readInput] on two states with the same bitsets: they
    take the same way, with the same message, and write the same cells. *)
Lemma readInput_loop_same_sets n input i s t err :
  columns s = columns t → rows s = rows t → subgrid s = subgrid t →
  length (grid s) = length (grid t) →
  (∀ q, (q < i)%nat → grid s !! q = grid t !! q) →
  match readInput_loop n input i s err, readInput_loop n input i t err with
  | Some (b, s', e), Some (b', t', e') =>
      b = b' ∧ e = e' ∧
      (b = true →
       columns s' = columns t' ∧ rows s' = rows t' ∧
       subgrid s' = subgrid t' ∧ length (grid s') = length (grid t') ∧
       ∀ q, (q < i + n)%nat → grid s' !! q = grid t' !! q)
  | None, None => True
  | _, _ => False
  end.
Proof.
  revert i s t. induction n as [|n IH]; intros i s t Hc Hr Hb Hlen Hg.
  { simpl. rewrite Nat.add_0_r. by repeat split. }
  rewrite !readInput_loop_unfold. unfold readInput_body.
  destruct (invalid_char _); simpl; [by repeat split|].
  set (num := num_of (char_at input i)).
  assert (∀ q, (q < S i)%nat →
    <[i := num]> (grid s) !! q = <[i := num]> (grid t) !! q) as Hg'.
  { intros q Hq. destruct (decide (q = i)) as [->|Hne].
    - destruct (decide (i < length (grid t))%nat).
      + by rewrite !list_lookup_insert_eq by lia.
      + by rewrite !lookup_ge_None_2 by (rewrite length_insert; lia).
    - rewrite !list_lookup_insert_ne by done. apply Hg. lia. }
  replace (i + S n)%nat with (S i + n)%nat by lia.
  destruct (0 <? num).
  2: { simpl. apply IH; simpl; (done || by rewrite !length_insert). }
  destruct (ninths !! i) as [b|]; simpl; [|done].
  rewrite <- Hc, <- Hr, <- Hb.
  destruct (bit (columns s) _ _) as [[]|]; simpl; [by repeat split| |done].
  destruct (bit (rows s) _ _) as [[]|]; simpl; [by repeat split| |done].
  destruct (bit (subgrid s) _ _) as [[]|]; simpl; [by repeat split| |done].
  apply IH; simpl; (done || congruence || by rewrite !length_insert).
Qed.

Lemma readInput_fresh_same (input : string) (g0 g0' : list Z)
    (err : string) :
  length g0 = 81%nat → length g0' = 81%nat →
  (λ r, (r.1.1, r.2)) <$> readInput input (fresh g0) err =
  (λ r, (r.1.1, r.2)) <$> readInput input (fresh g0') err ∧
  (∀ s err', readInput input (fresh g0) err = Some (true, s, err') →
     readInput input (fresh g0') err = Some (true, s, err')).
Proof.
  intros Hg0 Hg0'. unfold readInput. destruct (negb _); [by split|].
  pose proof (readInput_loop_same_sets 81 input 0 (fresh g0) (fresh g0') err
    eq_refl eq_refl eq_refl ltac:(simpl; congruence)
    ltac:(intros q Hq; lia)) as Hsame.
  pose proof (readInput_loop_total 81 input 0 (fresh g0) err
    ltac:(by split) ltac:(lia)) as (r & Hr & (Hlen & _)).
  pose proof (readInput_loop_total 81 input 0 (fresh g0') err
    ltac:(by split) ltac:(lia)) as (r' & Hr' & (Hlen' & _)).
  rewrite Hr, Hr' in Hsame. rewrite Hr, Hr'. clear Hr Hr'.
  destruct r as [[b s] e], r' as [[b' s'] e'].
  simpl in *. destruct Hsame as (<- & <- & Hstate). split; [done|].
  intros s1 err' [= -> -> ->].
  destruct Hstate as (Hc & Hr1 & Hb & _ & Hg); [done|].
  destruct s1 as [g1 c1 r1 b1], s' as [g2 c2 r2 b2]; simpl in *. subst.
  assert (g1 = g2) as ->; [|done].
  apply list_eq. intros q. destruct (decide (q < 81)%nat).
  - by apply Hg.
  - rewrite !lookup_ge_None_2; (done || lia).
Qed.

(** X4. What the grid holds before [readInput] is of no consequence: with
    two grids of 81 cells, [readInput] returns the same boolean and the
    same message, and when it returns true it leaves the same state. *)
Theorem readInput_grid_irrelevant (input : string) (g0 g0' : list Z)
    (err : string) :
  length g0 = 81%nat → length g0' = 81%nat →
  (λ r, (r.1.1, r.2)) <$> readInput input (fresh g0) err =
  (λ r, (r.1.1, r.2)) <$> readInput input (fresh g0') err ∧
  (∀ s err', readInput input (fresh g0) err = Some (true, s, err') →
     readInput input (fresh g0') err = Some (true, s, err')).
Proof. apply readInput_fresh_same. Qed.

Lemma readInput_grid_irrelevant_witness :
  length zero_grid = 81%nat ∧ length (replicate 81 7) = 81%nat ∧
  (λ r, (r.1.1, r.2)) <$> readInput example_input (fresh zero_grid) "" =
  (λ r, (r.1.1, r.2)) <$>
    readInput example_input (fresh (replicate 81 7)) "" ∧
  (∀ s err', readInput example_input (fresh zero_grid) "" =
             Some (true, s, err') →
     readInput example_input (fresh (replicate 81 7)) "" =
     Some (true, s, err')).
Proof.
  assert (length zero_grid = 81%nat) as H1 by reflexivity.
  assert (length (replicate 81 7) = 81%nat) as H2 by reflexivity.
  exact (conj H1 (conj H2
    (readInput_grid_irrelevant example_input zero_grid (replicate 81 7) ""
       H1 H2))).
Defined.

(** ** More on the search *)

(** X7. [solve] decides whether the puzzle has a solution: on a consistent
    state it returns true exactly when the grid has a valid completion, and
    the grid it then leaves is one, complete, obeying the rules and
    agreeing with the clues; when it returns false there is none. *)
Theorem solve_decides (s : sudoku) :
  consistent s →
  ∃ (b : bool) (s' : sudoku),
    solve 0 s = Some (b, s') ∧
    (b = true ↔ ∃ g, completion (grid s) g) ∧
    (b = true → completion (grid s) (grid s')).
Proof.
  intros Hs. pose proof Hs as (Hwf & _).
  destruct (solve_fuel_total 81 0 s) as ([b s'] & Hres & _); [lia|done|].
  exists b, s'. split; [done|].
  pose proof (solve_fuel_correct _ _ _ _ Hs Hres) as Hpost.
  destruct b.
  - apply solve_post_completion in Hpost. split; [|done].
    split; [by exists (grid s')|done].
  - destruct Hpost as [_ Hnone]. split; [|done].
    split; [done|]. intros [g Hg]. by destruct (Hnone g).
Qed.

Lemma solve_decides_witness :
  consistent dead_end_state ∧
  ∃ (b : bool) (s' : sudoku),
    solve 0 dead_end_state = Some (b, s') ∧
    (b = true ↔ ∃ g, completion (grid dead_end_state) g) ∧
    (b = true → completion (grid dead_end_state) (grid s')).
Proof.
  exact (conj dead_end_state_consistent
           (solve_decides dead_end_state dead_end_state_consistent)).
Defined.

(** X8. A puzzle with exactly one solution is solved to that solution. *)
Theorem solve_unique_solution (s : sudoku) (g : list Z) :
  consistent s → completion (grid s) g →
  (∀ g', completion (grid s) g' → g' = g) →
  ∃ s' : sudoku, solve 0 s = Some (true, s') ∧ grid s' = g.
Proof.
  intros Hs Hg Honly. pose proof Hs as (Hwf & _).
  destruct (solve_fuel_total 81 0 s) as ([b s'] & Hres & _); [lia|done|].
  pose proof (solve_fuel_correct _ _ _ _ Hs Hres) as Hpost.
  destruct b; [|by destruct Hpost as [_ Hnone]; destruct (Hnone g)].
  exists s'. split; [done|]. by apply Honly, solve_post_completion.
Qed.

Lemma one_gap_state_consistent : consistent one_gap_state.
Proof.
  apply (readInput_consistent one_gap_input zero_grid "" _ "");
    [done|]. vm_compute. reflexivity.
Qed.

Lemma one_gap_completion : completion (grid one_gap_state) example_solution.
Proof.
  split; [by destruct example_solution_completion|].
  change example_solution with (<[2%nat := 4]> (grid one_gap_state)).
  apply keeps_insert. intros v [= <-]. lia.
Qed.

(** The digits 1, 2, 3, 5, 6, 7, 8 and 9 are in the row of the gap: a
    completion holds 4 there, and the clues everywhere else. *)
Lemma one_gap_only (g' : list Z) :
  completion (grid one_gap_state) g' → g' = example_solution.
Proof.
  intros [(Hlen & Hrange & Hu) Hk].
  assert (∀ (q : nat) (v : Z), q ≠ 2%nat →
    example_solution !! q = Some v → g' !! q = Some v) as Hsame.
  { intros q v Hq Hv. apply Hk.
    - change example_solution with (<[2%nat := 4]> (grid one_gap_state)) in Hv.
      by rewrite list_lookup_insert_ne in Hv.
    - destruct one_gap_completion as [(_ & Hr & _) _]. apply Hr in Hv. lia. }
  destruct (lookup_lt_is_Some_2 g' 2) as [d Hd]; [lia|].
  pose proof (Hrange _ _ Hd) as Hd19.
  assert (d = 4) as ->.
  { assert (d = 1 ∨ d = 2 ∨ d = 3 ∨ d = 4 ∨ d = 5 ∨ d = 6 ∨ d = 7 ∨ d = 8 ∨
            d = 9) as Hcases by lia.
    destruct Hcases as [->|[->|[->|[->|[->|[->|[->|[->| ->]]]]]]]];
      [exfalso| exfalso| exfalso| done| exfalso| exfalso| exfalso| exfalso|
       exfalso].
    - destruct (Hu 7%nat 2%nat 1) as (_ & Hrow & _);
        [lia|lia|lia|lia|by apply Hsame|done|exact (Hrow eq_refl)].
    - destruct (Hu 8%nat 2%nat 2) as (_ & Hrow & _);
        [lia|lia|lia|lia|by apply Hsame|done|exact (Hrow eq_refl)].
    - destruct (Hu 1%nat 2%nat 3) as (_ & Hrow & _);
        [lia|lia|lia|lia|by apply Hsame|done|exact (Hrow eq_refl)].
    - destruct (Hu 0%nat 2%nat 5) as (_ & Hrow & _);
        [lia|lia|lia|lia|by apply Hsame|done|exact (Hrow eq_refl)].
    - destruct (Hu 3%nat 2%nat 6) as (_ & Hrow & _);
        [lia|lia|lia|lia|by apply Hsame|done|exact (Hrow eq_refl)].
    - destruct (Hu 4%nat 2%nat 7) as (_ & Hrow & _);
        [lia|lia|lia|lia|by apply Hsame|done|exact (Hrow eq_refl)].
    - destruct (Hu 5%nat 2%nat 8) as (_ & Hrow & _);
        [lia|lia|lia|lia|by apply Hsame|done|exact (Hrow eq_refl)].
    - destruct (Hu 6%nat 2%nat 9) as (_ & Hrow & _);
        [lia|lia|lia|lia|by apply Hsame|done|exact (Hrow eq_refl)]. }
  apply list_eq. intros q. destruct (decide (q = 2%nat)) as [->|Hq]; [done|].
  destruct (example_solution !! q) as [v|] eqn:Hv; [by apply Hsame|].
  apply lookup_ge_None in Hv. apply lookup_ge_None.
  change (length example_solution) with 81%nat in Hv. lia.
Qed.

(** On [one_gap_state] the third cell is empty: the search has to find its
    digit, the only one that the row leaves. *)
Lemma solve_unique_solution_witness :
  grid one_gap_state !! 2%nat = Some 0 ∧
  consistent one_gap_state ∧
  completion (grid one_gap_state) example_solution ∧
  (∀ g', completion (grid one_gap_state) g' → g' = example_solution) ∧
  ∃ s' : sudoku,
    solve 0 one_gap_state = Some (true, s') ∧ grid s' = example_solution.
Proof.
  split; [reflexivity|].
  exact (conj one_gap_state_consistent (conj one_gap_completion
    (conj one_gap_only
      (solve_unique_solution one_gap_state example_solution
         one_gap_state_consistent one_gap_completion one_gap_only)))).
Defined.

(** X9. [solve] never checks the cells it finds filled: a grid that is
    filled from [p] on is left as it is and reported as solved, whether it
    obeys the rules or not, and whatever the bitsets hold. *)
Theorem solve_filled_unchanged (p : nat) (s : sudoku) :
  (p ≤ 81)%nat → filled_from p (grid s) → solve p s = Some (true, s).
Proof.
  intros Hp Hfill. apply solve_fuel_filled; [lia|done].
Qed.

Lemma fives_filled : filled_from 0 (grid fives).
Proof.
  intros q Hq. exists 5. split; [|done]. apply lookup_replicate_2. lia.
Qed.

Lemma solve_filled_unchanged_witness :
  (0 ≤ 81)%nat ∧ filled_from 0 (grid fives) ∧ ¬ unique_upto 81 (grid fives) ∧
  solve 0 fives = Some (true, fives).
Proof.
  assert (0 ≤ 81)%nat as H1 by lia.
  split; [exact H1|]. split; [exact fives_filled|]. split.
  - intros Hu.
    destruct (Hu 0%nat 1%nat 5) as (_ & Hrow & _);
      [lia|lia|done|lia|done|done|].
    by apply Hrow.
  - exact (solve_filled_unchanged 0 fives H1 fives_filled).
Defined.

Lemma solve_loop_before rec p c_i r_i s_i n i s res :
  (∀ s1 r, rec s1 = Some r →
     ∀ q, (q < p + 1)%nat → grid r.2 !! q = grid s1 !! q) →
  solve_loop rec p c_i r_i s_i n i s = Some res →
  ∀ q, (q < p)%nat → grid res.2 !! q = grid s !! q.
Proof.
  intros Hrec. revert i s. induction n as [|n IH]; intros i s.
  { by intros [= <-]. }
  rewrite solve_loop_unfold.
  destruct (blocked _ _ _ _ s) as [[]|]; simpl; [by eauto| |done].
  destruct (rec _) as [[b2 s2]|] eqn:Hr; simpl; [|done].
  pose proof (Hrec _ _ Hr) as Hs2. simpl in Hs2.
  assert (∀ q, (q < p)%nat → grid s2 !! q = grid s !! q) as Hs2'.
  { intros q Hq. rewrite Hs2 by lia. apply list_lookup_insert_ne. lia. }
  destruct b2; [by intros [= <-]|]. intros Hloop q Hq.
  rewrite (IH _ _ Hloop q Hq). simpl.
  rewrite list_lookup_insert_ne by lia. by apply Hs2'.
Qed.

(** X10. [solve(p, s)] writes no cell before position [p]: whatever it
    returns, these cells hold what they held at the call, the empty ones
    included. *)
Theorem solve_cells_before (p : nat) (s : sudoku) (res : bool * sudoku) :
  solve p s = Some res →
  ∀ q : nat, (q < p)%nat → grid res.2 !! q = grid s !! q.
Proof.
  unfold solve. generalize (S (81 - p)). intros fuel. revert p s res.
  induction fuel as [|fuel IH]; intros p s res; [done|].
  rewrite solve_fuel_unfold. destruct (p =? 81)%nat; [by intros [= <-]|].
  destruct (grid s !! p) as [v|]; simpl; [|done].
  destruct (0 <? v).
  { intros Hrec q Hq. apply (IH _ _ _ Hrec). lia. }
  destruct (ninths !! p) as [b|]; simpl; [|done].
  apply solve_loop_before. intros s1 r Hr q Hq. by apply (IH _ _ _ Hr).
Qed.

Lemma solve_cells_before_witness :
  ∃ res : bool * sudoku,
    solve 72 example_state = Some res ∧ res.1 = true ∧
    ∀ q : nat, (q < 72)%nat → grid res.2 !! q = grid example_state !! q.
Proof.
  exists (default (false, example_state) (solve 72 example_state)).
  assert (solve 72 example_state =
          Some (default (false, example_state) (solve 72 example_state)))
    as H by (vm_compute; reflexivity).
  split; [exact H|]. split; [vm_compute; reflexivity|].
  exact (solve_cells_before 72 example_state _ H).
Defined.

(** ** The printer *)

Lemma append_assoc (a b c : string) : (a +:+ b) +:+ c = a +:+ (b +:+ c).
Proof.
  induction a as [|x a IH]; [done|].
  change (String x ((a +:+ b) +:+ c) = String x (a +:+ (b +:+ c))).
  by rewrite IH.
Qed.

Lemma append_nil_r (a : string) : a +:+ "" = a.
Proof.
  induction a as [|x a IH]; [done|].
  change (String x (a +:+ "") = String x a). by rewrite IH.
Qed.

Lemma cat_app (l1 l2 : list string) : cat (l1 ++ l2) = cat l1 +:+ cat l2.
Proof.
  induction l1 as [|x l1 IH]; [done|]. unfold cat in *.
  cbn [foldr app]. by rewrite IH, append_assoc.
Qed.

Lemma printGrid_loop_unfold n g i cout :
  printGrid_loop (S n) g i cout =
  cout' ← printGrid_body g i cout; printGrid_loop n g (S i) cout'.
Proof. reflexivity. Qed.

Lemma printGrid_loop_app a b g i cout :
  printGrid_loop (a + b) g i cout =
  cout' ← printGrid_loop a g i cout; printGrid_loop b g (i + a) cout'.
Proof.
  revert i cout. induction a as [|a IH]; intros i cout.
  { simpl. by rewrite Nat.add_0_r. }
  rewrite Nat.add_succ_l, !printGrid_loop_unfold.
  destruct (printGrid_body g i cout) as [cout'|]; simpl; [|done].
  rewrite IH. by replace (S i + a)%nat with (i + S a)%nat by lia.
Qed.

Lemma mod9_offset (k i : nat) :
  (i mod 9 = 0)%nat → (k < 9)%nat → ((k + i) mod 9 = k)%nat.
Proof.
  intros Hi Hk. rewrite Nat.Div0.add_mod, Hi, Nat.add_0_r.
  rewrite Nat.Div0.mod_mod. by apply Nat.mod_small.
Qed.

(** Nine turns from the first cell of a row write the row. *)
Lemma printGrid_loop_row g i cout row :
  (i mod 9 = 0)%nat → length row = 9%nat →
  (∀ k v, row !! k = Some v → g !! (k + i)%nat = Some v) →
  printGrid_loop 9 g i cout = Some (cout +:+ row_text row).
Proof.
  intros Hi Hlen Hg.
  do 9 (destruct row as [|? row]; [done|]). destruct row; [|done].
  pose proof (mod9_offset 0 i Hi ltac:(lia)) as M0.
  pose proof (mod9_offset 1 i Hi ltac:(lia)) as M1.
  pose proof (mod9_offset 2 i Hi ltac:(lia)) as M2.
  pose proof (mod9_offset 3 i Hi ltac:(lia)) as M3.
  pose proof (mod9_offset 4 i Hi ltac:(lia)) as M4.
  pose proof (mod9_offset 5 i Hi ltac:(lia)) as M5.
  pose proof (mod9_offset 6 i Hi ltac:(lia)) as M6.
  pose proof (mod9_offset 7 i Hi ltac:(lia)) as M7.
  pose proof (mod9_offset 8 i Hi ltac:(lia)) as M8.
  pose proof (Hg 0%nat _ eq_refl) as G0. pose proof (Hg 1%nat _ eq_refl) as G1.
  pose proof (Hg 2%nat _ eq_refl) as G2. pose proof (Hg 3%nat _ eq_refl) as G3.
  pose proof (Hg 4%nat _ eq_refl) as G4. pose proof (Hg 5%nat _ eq_refl) as G5.
  pose proof (Hg 6%nat _ eq_refl) as G6. pose proof (Hg 7%nat _ eq_refl) as G7.
  pose proof (Hg 8%nat _ eq_refl) as G8.
  cbn [Nat.add] in *.
  rewrite printGrid_loop_unfold. unfold printGrid_body.
  rewrite M0, G0. cbn [Nat.eqb mbind option_bind].
  rewrite printGrid_loop_unfold. unfold printGrid_body.
  rewrite M1, G1. cbn [Nat.eqb mbind option_bind].
  rewrite printGrid_loop_unfold. unfold printGrid_body.
  rewrite M2, G2. cbn [Nat.eqb mbind option_bind].
  rewrite printGrid_loop_unfold. unfold printGrid_body.
  rewrite M3, G3. cbn [Nat.eqb mbind option_bind].
  rewrite printGrid_loop_unfold. unfold printGrid_body.
  rewrite M4, G4. cbn [Nat.eqb mbind option_bind].
  rewrite printGrid_loop_unfold. unfold printGrid_body.
  rewrite M5, G5. cbn [Nat.eqb mbind option_bind].
  rewrite printGrid_loop_unfold. unfold printGrid_body.
  rewrite M6, G6. cbn [Nat.eqb mbind option_bind].
  rewrite printGrid_loop_unfold. unfold printGrid_body.
  rewrite M7, G7. cbn [Nat.eqb mbind option_bind].
  rewrite printGrid_loop_unfold. unfold printGrid_body.
  rewrite M8, G8. cbn [Nat.eqb mbind option_bind].
  cbn [printGrid_loop].
  f_equal. unfold row_text, cat. cbn [fmap list_fmap foldr].
  by rewrite !append_assoc, append_nil_r.
Qed.

Lemma printGrid_loop_rows g m r cout :
  (9 * (r + m) ≤ length g)%nat →
  printGrid_loop (9 * m) g (9 * r) cout =
  Some (cout +:+
        cat (row_text <$> ((λ r, take 9 (drop (9 * r) g)) <$> seq r m))).
Proof.
  revert r cout. induction m as [|m IH]; intros r cout Hlen.
  { simpl. by rewrite append_nil_r. }
  replace (9 * S m)%nat with (9 + 9 * m)%nat by lia.
  rewrite printGrid_loop_app.
  rewrite (printGrid_loop_row g (9 * r) cout (take 9 (drop (9 * r) g))).
  - cbn [mbind option_bind].
    replace (9 * r + 9)%nat with (9 * S r)%nat by lia.
    rewrite IH by lia. cbn [seq fmap list_fmap cat foldr].
    by rewrite append_assoc.
  - rewrite Nat.mul_comm. apply Nat.Div0.mod_mul.
  - rewrite length_take, length_drop. lia.
  - intros k v Hk. apply lookup_take_Some in Hk as [Hk _].
    rewrite lookup_drop in Hk. by rewrite Nat.add_comm.
Qed.

(** X11. [printGrid] writes, after what was written before, the nine rows
    of the grid, each as a newline followed by its nine cells in decimal,
    every cell followed by a space, and then a newline: a blank line comes
    first and each line ends with a space. It reads no cell outside of the
    grid. *)
Theorem printGrid_format (g : list Z) (cout : string) :
  length g = 81%nat →
  printGrid g cout =
  Some ((cout +:+ cat (row_text <$> grid_rows g)) +:+ endl).
Proof.
  intros Hlen.
  pose proof (printGrid_loop_rows g 9 0 cout ltac:(lia)) as Hrows.
  change (printGrid_loop 81 g 0 cout =
          Some (cout +:+ cat (row_text <$> grid_rows g))) in Hrows.
  unfold printGrid. by rewrite Hrows.
Qed.

Lemma printGrid_format_witness :
  length example_solution = 81%nat ∧
  printGrid example_solution "" =
  Some (("" +:+ cat (row_text <$> grid_rows example_solution)) +:+ endl).
Proof.
  assert (length example_solution = 81%nat) as H by reflexivity.
  exact (conj H (printGrid_format example_solution "" H)).
Defined.

(** ** Printing and reading back *)

Ltac digit_cases v :=
  let H := fresh in
  assert (v = 0 ∨ v = 1 ∨ v = 2 ∨ v = 3 ∨ v = 4 ∨ v = 5 ∨ v = 6 ∨ v = 7 ∨
          v = 8 ∨ v = 9) as H by lia;
  destruct H as [->|[->|[->|[->|[->|[->|[->|[->|[->| ->]]]]]]]]].

Lemma to_string_digit (v : Z) :
  0 ≤ v ≤ 9 → to_string v = String (digit_char v) "".
Proof. intros Hv. digit_cases v; reflexivity. Qed.

Lemma digit_char_value (v : Z) :
  0 ≤ v ≤ 9 →
  invalid_char (digit_char v) = false ∧ num_of (digit_char v) = v ∧
  Ascii.eqb (digit_char v) zero = false ∧
  strip_blanks (String (digit_char v) "") = String (digit_char v) "".
Proof. intros Hv. digit_cases v; done. Qed.

Lemma strip_blanks_app (a b : string) :
  strip_blanks (a +:+ b) = strip_blanks a +:+ strip_blanks b.
Proof.
  induction a as [|x a IH]; [done|].
  change (strip_blanks (String x (a +:+ b)) =
          strip_blanks (String x a) +:+ strip_blanks b).
  cbn [strip_blanks]. destruct (_ || _); [done|].
  change (String x (strip_blanks (a +:+ b)) =
          String x (strip_blanks a +:+ strip_blanks b)).
  by rewrite IH.
Qed.

(** What [n] turns of [printGrid] write is, blanks apart, the digits of the
    [n] cells. *)
Lemma printGrid_loop_strip n (g : list Z) i cout out :
  (∀ j v, g !! j = Some v → 0 ≤ v ≤ 9) →
  printGrid_loop n g i cout = Some out →
  strip_blanks out = strip_blanks cout +:+ digits (take n (drop i g)).
Proof.
  intros Hg. revert i cout. induction n as [|n IH]; intros i cout.
  { intros [= <-]. by rewrite take_0, append_nil_r. }
  rewrite printGrid_loop_unfold. unfold printGrid_body.
  destruct (g !! i) as [v|] eqn:Hv; [|done]. cbn [mbind option_bind].
  intros Hloop. apply IH in Hloop. rewrite Hloop.
  destruct (digit_char_value v (Hg _ _ Hv)) as (_ & _ & _ & Hstrip).
  rewrite !strip_blanks_app, (to_string_digit v (Hg _ _ Hv)), Hstrip.
  rewrite (drop_S g v i Hv). cbn [take digits foldr].
  assert (strip_blanks (if (i mod 9 =? 0)%nat then cout +:+ endl else cout)
          = strip_blanks cout) as ->.
  { destruct (_ =? _)%nat; [|done].
    by rewrite strip_blanks_app, append_nil_r. }
  change (strip_blanks " ") with ""%string.
  by rewrite append_nil_r, append_assoc.
Qed.

Lemma strlen_digits (g : list Z) :
  (∀ j v, g !! j = Some v → 0 ≤ v ≤ 9) → strlen (digits g) = length g.
Proof.
  induction g as [|v g IH]; intros Hg; [done|].
  destruct (digit_char_value v (Hg 0%nat v eq_refl)) as (_ & _ & Hnul & _).
  cbn [digits foldr strlen length]. rewrite Hnul. f_equal. apply IH.
  intros j v' Hj. by apply (Hg (S j)).
Qed.

Lemma char_at_digits (g : list Z) (j : nat) (v : Z) :
  g !! j = Some v → char_at (digits g) j = digit_char v.
Proof.
  unfold char_at. revert j. induction g as [|v' g IH]; intros j; [done|].
  destruct j as [|j]; [by intros [= ->]|]. apply IH.
Qed.

(** An accepted input is read into the grid it denotes. *)
Lemma readInput_accepted input (g0 : list Z) err :
  accepted input → length g0 = 81%nat →
  ∃ s, readInput input (fresh g0) err = Some (true, s, err) ∧
       consistent s ∧ grid s = parse_grid input.
Proof.
  intros (Hlen & Hvalid & Huniq) Hg0. unfold readInput. rewrite Hlen.
  change (negb (81 =? 81)%nat) with false. cbn iota.
  destruct (readInput_loop_accepts 81 input 0 (fresh g0) err) as [s Hs];
    [by apply fresh_consistent|lia|done|done|intros q Hq; lia|].
  exists s. split; [done|].
  apply readInput_loop_true in Hs as (_ & Hcons & Hcells & _);
    [|by apply fresh_consistent|lia].
  split; [done|]. apply parse_grid_eq; [by destruct Hcons as ((? & _) & _)|].
  intros j Hj. apply Hcells. lia.
Qed.

(** The digits of a legal grid are an accepted input that denotes it. *)
Lemma digits_accepted (g : list Z) :
  length g = 81%nat → cell_ok 81 g → unique_upto 81 g →
  accepted (digits g) ∧ parse_grid (digits g) = g.
Proof.
  intros Hlen Hok Huniq.
  assert (∀ j v, g !! j = Some v → 0 ≤ v ≤ 9) as Hrange.
  { intros j v Hj. apply (Hok j v); [|done].
    apply lookup_lt_Some in Hj. lia. }
  assert (parse_grid (digits g) = g) as Hparse.
  { symmetry. apply parse_grid_eq; [done|]. intros j Hj.
    destruct (lookup_lt_is_Some_2 g j) as [v Hv]; [lia|].
    rewrite (char_at_digits g j v Hv), Hv.
    by destruct (digit_char_value v (Hrange _ _ Hv)) as (_ & -> & _). }
  split; [|done]. split; [by rewrite strlen_digits|].
  split; [|by rewrite Hparse]. intros j Hj.
  destruct (lookup_lt_is_Some_2 g j) as [v Hv]; [lia|].
  rewrite (char_at_digits g j v Hv).
  by destruct (digit_char_value v (Hrange _ _ Hv)) as (-> & _).
Qed.

(** X12. Printing and reading back: what [printGrid] writes for a legal
    grid (81 cells holding 0..9, no digit twice in a row, a column or a
    subgrid) is, once the spaces and newlines are removed, an input that
    [readInput] accepts and reads into the same grid. *)
Theorem print_then_read (g g0 : list Z) (err : string) :
  length g = 81%nat → cell_ok 81 g → unique_upto 81 g →
  length g0 = 81%nat →
  ∃ (out : string) (s : sudoku),
    printGrid g "" = Some out ∧
    readInput (strip_blanks out) (fresh g0) err = Some (true, s, err) ∧
    grid s = g.
Proof.
  intros Hlen Hok Huniq Hg0.
  destruct (digits_accepted g Hlen Hok Huniq) as [Hacc Hparse].
  destruct (readInput_accepted (digits g) g0 err Hacc Hg0)
    as (s & Hread & _ & Hgrid).
  assert (∀ j v, g !! j = Some v → 0 ≤ v ≤ 9) as Hrange.
  { intros j v Hj. apply (Hok j v); [|done].
    apply lookup_lt_Some in Hj. lia. }
  unfold printGrid.
  destruct (printGrid_loop 81 g 0 "") as [out|] eqn:Hloop.
  2: { pose proof (printGrid_loop_rows g 9 0 "" ltac:(lia)) as Hrows.
       change (printGrid_loop (9 * 9) g (9 * 0) "")
         with (printGrid_loop 81 g 0 "") in Hrows. congruence. }
  cbn [mbind option_bind]. exists (out +:+ endl), s. split; [done|].
  apply (printGrid_loop_strip _ _ _ _ _ Hrange) in Hloop.
  rewrite drop_0, take_ge in Hloop by lia.
  rewrite strip_blanks_app, Hloop. change (strip_blanks endl) with ""%string.
  change (strip_blanks "") with ""%string. rewrite append_nil_r.
  split; [exact Hread|]. by rewrite Hgrid.
Qed.

Lemma example_solution_legal :
  length example_solution = 81%nat ∧ cell_ok 81 example_solution ∧
  unique_upto 81 example_solution.
Proof.
  destruct example_solution_completion as [(Hlen & Hrange & Huniq) _].
  split; [done|]. split; [|done]. intros q v _ Hq.
  apply Hrange in Hq. lia.
Qed.

Lemma print_then_read_witness :
  length example_solution = 81%nat ∧ cell_ok 81 example_solution ∧
  unique_upto 81 example_solution ∧ length zero_grid = 81%nat ∧
  ∃ (out : string) (s : sudoku),
    printGrid example_solution "" = Some out ∧
    readInput (strip_blanks out) (fresh zero_grid) "" =
      Some (true, s, ""%string) ∧
    grid s = example_solution.
Proof.
  pose proof (proj1 example_solution_legal) as H1.
  pose proof (proj1 (proj2 example_solution_legal)) as H2.
  pose proof (proj2 (proj2 example_solution_legal)) as H3.
  assert (length zero_grid = 81%nat) as H4 by reflexivity.
  exact (conj H1 (conj H2 (conj H3 (conj H4
    (print_then_read example_solution zero_grid "" H1 H2 H3 H4))))).
Defined.

(** ** The program *)

(** What [readInput] accepts is a well-formed puzzle. *)
Lemma readInput_true_accepted input (g0 : list Z) err s err' :
  length g0 = 81%nat →
  readInput input (fresh g0) err = Some (true, s, err') →
  accepted input ∧ consistent s ∧ grid s = parse_grid input.
Proof.
  intros Hg0. unfold readInput.
  destruct (Nat.eqb_spec (strlen input) 81) as [Hlen|]; [|done].
  cbn [negb]. intros Hloop.
  apply readInput_loop_true in Hloop as (_ & Hs & Hcells & _);
    [|by apply fresh_consistent|lia].
  rewrite Nat.add_0_l in *.
  assert (grid s = parse_grid input) as Hgrid.
  { apply parse_grid_eq; [by destruct Hs as ((? & _) & _)|].
    intros j Hj. apply Hcells. lia. }
  split; [|done]. split; [done|]. split.
  - intros j Hj. apply Hcells. lia.
  - rewrite <- Hgrid. by destruct Hs as (_ & _ & _ & ?).
Qed.

Lemma printGrid_total (g : list Z) cout :
  length g = 81%nat → ∃ out, printGrid g cout = Some out.
Proof.
  intros Hlen. unfold printGrid.
  pose proof (printGrid_loop_rows g 9 0 cout ltac:(lia)) as Hrows.
  change (printGrid_loop (9 * 9) g (9 * 0) cout)
    with (printGrid_loop 81 g 0 cout) in Hrows.
  rewrite Hrows. by eexists.
Qed.

(** X13. [main] always terminates, with exit code 0 or 1: the code is 0
    exactly when there is an argument and it is a well-formed puzzle,
    solvable or not; a missing argument and every validation failure give
    1. *)
Theorem main_exit_code (argv : list string) (g0 : list Z) (cout : string) :
  length g0 = 81%nat →
  ∃ (code : Z) (out : string),
    main argv g0 cout = Some (code, out) ∧ (code = 0 ∨ code = 1) ∧
    (code = 0 ↔ ∃ input, argv !! 1%nat = Some input ∧ accepted input).
Proof.
  intros Hg0. unfold main.
  destruct (Nat.leb_spec (length argv) 1) as [Hargc|Hargc].
  { eexists _, _. split; [done|]. split; [by right|]. split; [done|].
    intros (input & Hin%lookup_lt_Some & _). lia. }
  destruct (lookup_lt_is_Some_2 argv 1) as [input Hin]; [lia|].
  rewrite Hin. cbn [mbind option_bind].
  destruct (readInput_total input (fresh g0) "") as ([[ok s] e] & Hr & Hwf);
    [by split|].
  rewrite Hr. cbn [mbind option_bind fst snd negb]. destruct ok; cbn [negb].
  - apply readInput_true_accepted in Hr as (Hacc & Hs & _); [|done].
    destruct (solve_fuel_total 81 0 s) as ([b s'] & Hres & Hwf');
      [lia|by destruct Hs|].
    unfold solve. change (S (81 - 0)) with 82%nat. rewrite Hres.
    cbn [mbind option_bind fst snd]. destruct b.
    + destruct (printGrid_total (grid s')
        (((cout +:+ "solving...") +:+ "solution found!") +:+ endl))
        as [out ->]; [by destruct Hwf'|].
      cbn [mbind option_bind]. eexists _, _. split; [done|].
      split; [by left|]. split; [|done]. intros _. by exists input.
    + eexists _, _. split; [done|]. split; [by left|].
      split; [|done]. intros _. by exists input.
  - eexists _, _. split; [done|]. split; [by right|]. split; [done|].
    intros (input' & Hin' & Hacc). simplify_eq.
    destruct (readInput_accepted input' g0 "" Hacc Hg0) as (s1 & Hr1 & _).
    congruence.
Qed.

Lemma main_exit_code_witness :
  length zero_grid = 81%nat ∧
  ∃ (code : Z) (out : string),
    main ["dusudoku"; row_duplicate_input] zero_grid "" = Some (code, out) ∧
    (code = 0 ∨ code = 1) ∧
    (code = 0 ↔
     ∃ input, ["dusudoku"; row_duplicate_input] !! 1%nat = Some input ∧
              accepted input).
Proof.
  assert (length zero_grid = 81%nat) as H by reflexivity.
  exact (conj H
    (main_exit_code ["dusudoku"; row_duplicate_input] zero_grid "" H)).
Defined.

(** X14. On a well-formed puzzle [main] writes ["solving..."] and then
    either ["no solution"], exactly when the puzzle has no valid
    completion, or ["solution found!"] and, with [printGrid], the smallest
    valid completion of the puzzle; the exit code is 0. *)
Theorem main_reports (argv : list string) (g0 : list Z) (cout : string)
    (input : string) :
  length g0 = 81%nat → argv !! 1%nat = Some input → accepted input →
  ((∀ g, ¬ completion (parse_grid input) g) →
   main argv g0 cout =
   Some (0, ((cout +:+ "solving...") +:+ "no solution") +:+ endl)) ∧
  ((∃ g, completion (parse_grid input) g) →
   ∃ g_min : list Z,
     completion (parse_grid input) g_min ∧
     (∀ g', completion (parse_grid input) g' → lex_leb g_min g' = true) ∧
     main argv g0 cout =
     (λ out, (0, out)) <$>
       printGrid g_min
         (((cout +:+ "solving...") +:+ "solution found!") +:+ endl)).
Proof.
  intros Hg0 Hin Hacc. unfold main.
  destruct (Nat.leb_spec (length argv) 1) as [Hargc|_].
  { apply lookup_lt_Some in Hin. lia. }
  rewrite Hin. cbn [mbind option_bind].
  destruct (readInput_accepted input g0 "" Hacc Hg0) as (s & -> & Hs & Hgrid).
  cbn [mbind option_bind fst snd negb].
  destruct (solve_fuel_total 81 0 s) as ([b s'] & Hres & Hwf');
    [lia|by destruct Hs|].
  pose proof (solve_fuel_correct _ _ _ _ Hs Hres) as Hpost.
  unfold solve. change (S (81 - 0)) with 82%nat. rewrite Hres.
  cbn [mbind option_bind fst snd]. rewrite <- Hgrid. destruct b.
  - pose proof (solve_post_completion _ _ Hpost) as Hcompl. split.
    + intros Hnone. by destruct (Hnone (grid s')).
    + intros _. exists (grid s'). split; [done|].
      split; [by destruct Hpost as (_ & _ & _ & Hlex)|].
      by destruct (printGrid _ _).
  - destruct Hpost as [_ Hnone]. split; [done|].
    intros [g Hg]. by destruct (Hnone g).
Qed.

Lemma example_input_accepted : accepted example_input.
Proof.
  apply (readInput_true_accepted example_input zero_grid "" example_state "");
    [done|]. vm_compute. reflexivity.
Qed.

Lemma main_reports_witness :
  length zero_grid = 81%nat ∧
  ["dusudoku"; example_input] !! 1%nat = Some example_input ∧
  accepted example_input ∧
  ((∀ g, ¬ completion (parse_grid example_input) g) →
   main ["dusudoku"; example_input] zero_grid "" =
   Some (0, (("" +:+ "solving...") +:+ "no solution") +:+ endl)) ∧
  ((∃ g, completion (parse_grid example_input) g) →
   ∃ g_min : list Z,
     completion (parse_grid example_input) g_min ∧
     (∀ g', completion (parse_grid example_input) g' →
            lex_leb g_min g' = true) ∧
     main ["dusudoku"; example_input] zero_grid "" =
     (λ out, (0, out)) <$>
       printGrid g_min
         ((("" +:+ "solving...") +:+ "solution found!") +:+ endl)).
Proof.
  assert (length zero_grid = 81%nat) as H1 by reflexivity.
  assert (["dusudoku"; example_input] !! 1%nat = Some example_input) as H2
    by reflexivity.
  exact (conj H1 (conj H2 (conj example_input_accepted
    (main_reports ["dusudoku"; example_input] zero_grid "" example_input
       H1 H2 example_input_accepted)))).
Defined.

(** X15. The grid that [main] leaves uninitialised has no influence: for
    any two contents of 81 cells the exit code and the text written are
    the same. *)
Theorem main_grid_irrelevant (argv : list string) (g0 g0' : list Z)
    (cout : string) :
  length g0 = 81%nat → length g0' = 81%nat →
  main argv g0 cout = main argv g0' cout.
Proof.
  intros Hg0 Hg0'. unfold main. destruct (_ <=? _)%nat; [done|].
  destruct (argv !! 1%nat) as [input|]; [|done]. cbn [mbind option_bind].
  destruct (readInput_fresh_same input g0 g0' "" Hg0 Hg0') as [Hsame Hsucc].
  destruct (readInput input (fresh g0) "") as [[[ok s] e]|] eqn:Hr.
  - destruct ok.
    + by rewrite (Hsucc _ _ eq_refl).
    + destruct (readInput input (fresh g0') "") as [[[ok' s'] e']|];
        [|done]. simpl in Hsame. by simplify_eq.
  - by destruct (readInput input (fresh g0') "").
Qed.

Lemma main_grid_irrelevant_witness :
  length zero_grid = 81%nat ∧ length (replicate 81 7) = 81%nat ∧
  main ["dusudoku"; example_input] zero_grid "" =
  main ["dusudoku"; example_input] (replicate 81 7) "".
Proof.
  assert (length zero_grid = 81%nat) as H1 by reflexivity.
  assert (length (replicate 81 7) = 81%nat) as H2 by reflexivity.
  exact (conj H1 (conj H2
    (main_grid_irrelevant ["dusudoku"; example_input] zero_grid
       (replicate 81 7) "" H1 H2))).
Defined.

(** ** Validating twice *)

Lemma set_grid_same p v s : grid s !! p = Some v → set_grid p v s = s.
Proof.
  intros Hp. destruct s as [g cs rs bs]. unfold set_grid. simpl in *.
  by rewrite list_insert_id.
Qed.

(** The turns over empty cells leave an already validated state as it
    is. *)
Lemma readInput_loop_empty_cells n input k s err :
  (∀ j, (k ≤ j < k + n)%nat →
     invalid_char (char_at input j) = false ∧ num_of (char_at input j) = 0 ∧
     grid s !! j = Some 0) →
  readInput_loop n input k s err = Some (true, s, err).
Proof.
  revert k. induction n as [|n IH]; intros k Hcells; [done|].
  destruct (Hcells k) as (Hinv & Hnum & Hg); [lia|].
  rewrite readInput_loop_unfold. unfold readInput_body.
  rewrite Hinv, Hnum. cbn [Z.ltb Z.compare mbind option_bind].
  rewrite (set_grid_same k 0 s Hg). apply IH. intros j Hj.
  apply Hcells. lia.
Qed.

(** X5. [readInput] never clears the bitsets: validating the same input
    again into the state that a successful validation left fails at the
    first digit of the input, with the column error, and leaves that state
    as it is. *)
Theorem readInput_again_fails (input : string) (g0 : list Z)
    (err err2 : string) (s : sudoku) (i : nat) :
  length g0 = 81%nat →
  readInput input (fresh g0) err = Some (true, s, err) →
  (i < 81)%nat → 0 < num_of (char_at input i) →
  (∀ j, (j < i)%nat → num_of (char_at input j) = 0) →
  readInput input s err2 =
  Some (false, s, column_error (num_of (char_at input i)) (i mod 9)).
Proof.
  intros Hg0 Hread Hi Hpos Hfirst.
  destruct (readInput_true_accepted _ _ _ _ _ Hg0 Hread)
    as ((Hlen & Hvalid & _) & Hs & Hgrid).
  assert (∀ j, (j < 81)%nat → grid s !! j = Some (num_of (char_at input j)))
    as Hcells by (intros j Hj; by rewrite Hgrid, parse_grid_lookup).
  rewrite (readInput_at input s err2 i s Hlen Hi).
  2: { apply readInput_loop_empty_cells. intros j Hj.
       split; [apply Hvalid; lia|]. split; [apply Hfirst; lia|].
       rewrite Hcells by lia. f_equal. apply Hfirst. lia. }
  unfold readInput_body. rewrite (Hvalid i Hi).
  destruct (Z.ltb_spec 0 (num_of (char_at input i))) as [_|]; [|lia].
  destruct (lookup_lt_is_Some_2 ninths i) as [b ->]; [simpl; lia|].
  cbn [mbind option_bind].
  rewrite (set_grid_same i _ s (Hcells i Hi)).
  destruct Hs as (_ & _ & (Hc & _) & _).
  pose proof (num_of_range _ (Hvalid i Hi)) as Hrange.
  assert (bit (columns s) (i mod 9) (num_of (char_at input i) - 1)
          = Some true) as ->.
  { apply Hc; [apply Nat.mod_upper_bound; lia|lia|].
    exists i. split; [done|]. split; [done|]. by apply Hcells. }
  done.
Qed.

Lemma readInput_again_fails_witness :
  length zero_grid = 81%nat ∧
  readInput example_input (fresh zero_grid) "" =
    Some (true, example_state, ""%string) ∧
  (0 < 81)%nat ∧ 0 < num_of (char_at example_input 0) ∧
  (∀ j, (j < 0)%nat → num_of (char_at example_input j) = 0) ∧
  readInput example_input example_state "" =
  Some (false, example_state,
        column_error (num_of (char_at example_input 0)) (0 mod 9)).
Proof.
  assert (length zero_grid = 81%nat) as H1 by reflexivity.
  assert (readInput example_input (fresh zero_grid) "" =
          Some (true, example_state, ""%string)) as H2
    by (vm_compute; reflexivity).
  assert (0 < 81)%nat as H3 by lia.
  assert (0 < num_of (char_at example_input 0)) as H4 by reflexivity.
  assert (∀ j, (j < 0)%nat → num_of (char_at example_input j) = 0) as H5
    by (intros j Hj; lia).
  exact (conj H1 (conj H2 (conj H3 (conj H4 (conj H5
    (readInput_again_fails example_input zero_grid "" "" example_state 0
       H1 H2 H3 H4 H5)))))).
Defined.

(** ** The order of the checks *)

(** The first [n] turns go on when the first [n] characters are valid and
    their cells hold no duplicate. *)
Lemma readInput_loop_accepts_upto m n input i s err :
  consistent_upto i s → (i + n ≤ m)%nat → (m ≤ 81)%nat →
  (∀ j, (j < m)%nat → invalid_char (char_at input j) = false) →
  unique_upto m (parse_grid input) →
  (∀ q, (q < i)%nat → grid s !! q = Some (num_of (char_at input q))) →
  ∃ s', readInput_loop n input i s err = Some (true, s', err).
Proof.
  intros Hs Hn Hm Hvalid Huniq. revert i s Hs Hn.
  induction n as [|n IH]; intros i s Hs Hn Hread; [by eexists|].
  rewrite readInput_loop_unfold.
  destruct (readInput_body_accepts input i s) as [s1 Hbody];
    [done|lia|apply Hvalid; lia| |].
  { intros q Hq Hpos Hgq.
    apply (Huniq q i (num_of (char_at input i))); try done; try lia.
    - rewrite parse_grid_lookup by lia. by rewrite <- Hread, Hgq.
    - apply parse_grid_lookup. lia. }
  rewrite Hbody. simpl.
  apply readInput_body_continue in Hbody as (_ & Hg1 & Hs1); [|done|lia].
  apply IH; [done|lia|]. intros q Hq. rewrite Hg1.
  destruct (decide (q = i)) as [->|Hne].
  - apply list_lookup_insert_eq. destruct Hs as ((-> & _) & _). lia.
  - rewrite list_lookup_insert_ne by done. apply Hread. lia.
Qed.

(** Conversely, when the first [i] turns went on, the first [i] characters
    are valid and their cells hold no duplicate. *)
Lemma readInput_loop_prefix input (g0 : list Z) err i s_i err' :
  length g0 = 81%nat → (i ≤ 81)%nat →
  readInput_loop i input 0 (fresh g0) err = Some (true, s_i, err') →
  (∀ j, (j < i)%nat → invalid_char (char_at input j) = false) ∧
  unique_upto i (parse_grid input).
Proof.
  intros Hg0 Hi Hloop.
  apply readInput_loop_true in Hloop as (_ & Hs & Hcells & _);
    [|by apply fresh_consistent|lia].
  rewrite Nat.add_0_l in *. split; [intros j Hj; apply Hcells; lia|].
  destruct Hs as (_ & _ & _ & Huniq).
  intros q1 q2 d H1 H2 Hne Hd G1 G2.
  rewrite parse_grid_lookup in G1, G2 by lia.
  destruct (Hcells q1) as [_ G1']; [lia|].
  destruct (Hcells q2) as [_ G2']; [lia|].
  apply (Huniq q1 q2 d); (done || congruence).
Qed.

(** C5. The checks of a cell are made in the order column, row, subgrid and
    validation stops at the first cell that fails. In [main]'s call of
    [readInput], let cell [i] hold a digit and be the first cell that can
    fail: the characters before it are valid and their cells hold no
    duplicate. When an earlier cell of the column of [i] holds the digit,
    [readInput] returns false with the column message, whatever the row
    and the subgrid hold; when no earlier cell of the column but an earlier
    cell of the row holds it, [readInput] returns false with the row
    message, whatever the subgrid holds. Nothing after cell [i] is read:
    the state is the one after [i] turns with cell [i] written. *)
Theorem readInput_check_order (input : string) (g0 : list Z) (err : string)
    (i : nat) :
  length g0 = 81%nat → strlen input = 81%nat → (i < 81)%nat →
  (∀ j, (j < i)%nat → invalid_char (char_at input j) = false) →
  unique_upto i (parse_grid input) →
  invalid_char (char_at input i) = false →
  0 < num_of (char_at input i) →
  ∃ s_i : sudoku,
    readInput_loop i input 0 (fresh g0) err = Some (true, s_i, err) ∧
    ((∃ q, (q < i)%nat ∧ col_of q = col_of i ∧
           num_of (char_at input q) = num_of (char_at input i)) →
     readInput input (fresh g0) err =
     Some (false, set_grid i (num_of (char_at input i)) s_i,
           "The number " +:+ to_string (num_of (char_at input i))
           +:+ " appears more than once in column "
           +:+ to_string (Z.of_nat (i mod 9) + 1))) ∧
    ((∀ q, (q < i)%nat → col_of q = col_of i →
           num_of (char_at input q) ≠ num_of (char_at input i)) →
     (∃ q, (q < i)%nat ∧ row_of q = row_of i ∧
           num_of (char_at input q) = num_of (char_at input i)) →
     readInput input (fresh g0) err =
     Some (false, set_grid i (num_of (char_at input i)) s_i,
           "The number " +:+ to_string (num_of (char_at input i))
           +:+ " appears more than once on row "
           +:+ to_string (Z.of_nat (i / 9) + 1))).
Proof.
  intros Hg0 Hlen Hi Hvalid Huniq Hinv Hpos.
  destruct (readInput_loop_accepts_upto i i input 0 (fresh g0) err)
    as [s_i Hloop];
    [by apply fresh_consistent|lia|lia|done|done|intros q Hq; lia|].
  exists s_i. split; [done|].
  rewrite (readInput_at _ _ _ _ _ Hlen Hi Hloop).
  apply readInput_loop_true in Hloop as (_ & Hs & Hcells & _);
    [|by apply fresh_consistent|lia].
  rewrite Nat.add_0_l in *.
  destruct Hs as (Hwf & _ & (Hc & Hr & _) & _).
  pose proof Hwf as (_ & Hcs & Hrs & _).
  pose proof (num_of_range _ Hinv) as Hrange.
  assert (i mod 9 < 9)%nat by (apply Nat.mod_upper_bound; lia).
  assert (i / 9 < 9)%nat by (apply Nat.Div0.div_lt_upper_bound; lia).
  unfold readInput_body. rewrite Hinv.
  set (num := num_of (char_at input i)) in *.
  destruct (Z.ltb_spec 0 num) as [_|]; [|lia].
  destruct (lookup_lt_is_Some_2 ninths i) as [b ->]; [simpl; lia|].
  cbn [mbind option_bind columns rows set_grid].
  assert (∀ q, (q < i)%nat → num_of (char_at input q) = num →
               grid s_i !! q = Some num) as Hcell.
  { intros q Hq <-. apply Hcells. lia. }
  split.
  - intros (q & Hq & Hcol & Hnum).
    assert (bit (columns s_i) (i mod 9) (num - 1) = Some true) as ->.
    { apply Hc; [done|lia|]. exists q. split; [done|].
      split; [done|]. by apply Hcell. }
    done.
  - intros Hnocol (q & Hq & Hrow & Hnum).
    destruct (bit_is_Some (columns s_i) (i mod 9) (num - 1)) as [[] Bc];
      [lia| |].
    { apply Hc in Bc as (q' & Hq' & Hcol' & Hg'); [|done|lia].
      destruct (Hnocol q' Hq' Hcol'). destruct (Hcells q') as [_ Hg'']; [lia|].
      congruence. }
    rewrite Bc. cbn [mbind option_bind].
    assert (bit (rows s_i) (i / 9) (num - 1) = Some true) as ->.
    { apply Hr; [done|lia|]. exists q. split; [done|].
      split; [done|]. by apply Hcell. }
    done.
Qed.

(** In [triple_input] the third 5 (cell 13) finds a 5 in its column (cell
    4), in its row (cell 9) and in its subgrid (cell 4): the column is
    reported. In [row_duplicate_input] the second 5 (cell 1) finds a 5 in
    its row and in its subgrid (cell 0) and none in its column: the row is
    reported. *)
Lemma readInput_check_order_witness :
  (row_of 9 = row_of 13 ∧ box_of 4 = box_of 13 ∧
   ∃ s_i : sudoku,
     readInput_loop 13 triple_input 0 (fresh zero_grid) "" =
       Some (true, s_i, ""%string) ∧
     readInput triple_input (fresh zero_grid) "" =
     Some (false, set_grid 13 5 s_i,
           "The number 5 appears more than once in column 5"%string)) ∧
  (box_of 0 = box_of 1 ∧
   ∃ s_i : sudoku,
     readInput_loop 1 row_duplicate_input 0 (fresh zero_grid) "" =
       Some (true, s_i, ""%string) ∧
     readInput row_duplicate_input (fresh zero_grid) "" =
     Some (false, set_grid 1 5 s_i,
           "The number 5 appears more than once on row 1"%string)).
Proof.
  assert (length zero_grid = 81%nat) as Hg0 by reflexivity.
  assert (readInput_loop 13 triple_input 0 (fresh zero_grid) "" =
          Some (true, triple_state, ""%string)) as Hloop1
    by (vm_compute; reflexivity).
  assert (readInput_loop 1 row_duplicate_input 0 (fresh zero_grid) "" =
          Some (true, state_after_turns 1 row_duplicate_input, ""%string))
    as Hloop2 by (vm_compute; reflexivity).
  assert (13 ≤ 81)%nat as Hle1 by lia.
  assert (1 ≤ 81)%nat as Hle2 by lia.
  pose proof (readInput_loop_prefix _ _ _ _ _ _ Hg0 Hle1 Hloop1)
    as [Hvalid1 Huniq1].
  pose proof (readInput_loop_prefix _ _ _ _ _ _ Hg0 Hle2 Hloop2)
    as [Hvalid2 Huniq2].
  assert (13 < 81)%nat as Hlt1 by lia.
  assert (1 < 81)%nat as Hlt2 by lia.
  split.
  - split; [reflexivity|]. split; [reflexivity|].
    destruct (readInput_check_order triple_input zero_grid "" 13
                Hg0 eq_refl Hlt1 Hvalid1 Huniq1 eq_refl eq_refl)
      as (s_i & Hs_i & Hcolumn & _).
    exists s_i. split; [exact Hs_i|]. apply Hcolumn.
    exists 4%nat. split; [lia|]. split; reflexivity.
  - split; [reflexivity|].
    destruct (readInput_check_order row_duplicate_input zero_grid "" 1
                Hg0 eq_refl Hlt2 Hvalid2 Huniq2 eq_refl eq_refl)
      as (s_i & Hs_i & _ & Hrow).
    exists s_i. split; [exact Hs_i|]. apply Hrow.
    + intros q Hq Hcol. assert (q = 0%nat) as -> by lia.
      vm_compute in Hcol. discriminate.
    + exists 0%nat. split; [lia|]. split; reflexivity.
Defined.
